(** * Film search console application: catalog client, analytics client,
      presenter and application loop.

    The Python modules [sql_queries], [mysql_connector], [log_writer],
    [log_stats], [formatter] and [main] are embedded as Rocq functions.
    The two storage servers are part of the model: the relational catalog is
    a record of tables and the SQL text of [sql_queries] is evaluated over
    it clause by clause; the analytics collection is the list of documents
    in insertion order.  Everything a driver can answer differently from
    one call to the next (connection attempts, operation failures, the UTC
    clock) is read from an environment [env], indexed by counters kept in
    the process state. *)

From Stdlib Require Import ZArith Ascii String OrdersEx Lia.
From stdpp Require Import base tactics option list sorting strings pretty gmap.

Open Scope Z_scope.

(** ** Python values *)

(** The scalar values that travel between the drivers and the program. *)
Inductive pyval :=
| PyNone
| PyInt (z : Z)
| PyStr (s : string).

#[global] Instance pyval_eq_dec : EqDecision pyval.
Proof. solve_decision. Defined.

(** A row as [DictCursor] returns it, and a [params] dictionary. *)
Abbreviation pydict := (gmap string pyval).

(** Truth value of a scalar ([not v] is its negation). *)
Definition truthy (v : pyval) : bool :=
  match v with
  | PyNone => false
  | PyInt z => negb (z =? 0)
  | PyStr s => negb (String.eqb s "")
  end.

(** ** The catalog schema (section 6 of the specification) *)

Record film := Film {
  film_id : Z;
  title : string;
  release_year : Z;
  rating : string }.

Record category := Category {
  category_id : Z;
  name : string }.

Record actor := Actor {
  actor_id : Z;
  first_name : string;
  last_name : string }.

Record film_category := FilmCategory {
  fc_film_id : Z;
  fc_category_id : Z }.

Record film_actor := FilmActor {
  fa_actor_id : Z;
  fa_film_id : Z }.

Record catalog := Catalog {
  films : list film;
  categories : list category;
  actors : list actor;
  film_categories : list film_category;
  film_actors : list film_actor }.

(** ** Collation

    Modelled from the spec: the table definitions are not part of the
    repository; the specification states that title matching is
    case-insensitive, which is the behaviour of a [_ci] collation on the
    text columns.  The collation is modelled on ASCII: two characters
    are equal when their upper-case forms are, and strings are ordered
    by their upper-case forms. *)

Definition upper_ascii (c : ascii) : ascii :=
  let n := N_of_ascii c in
  if ((97 <=? n) && (n <=? 122))%N then ascii_of_N (n - 32) else c.

Fixpoint upper (s : string) : string :=
  match s with
  | EmptyString => EmptyString
  | String c s' => String (upper_ascii c) (upper s')
  end.

Definition coll_eqb (c1 c2 : ascii) : bool :=
  Ascii.eqb (upper_ascii c1) (upper_ascii c2).

Definition coll_compare (s1 s2 : string) : comparison :=
  String_as_OT.compare (upper s1) (upper s2).

Definition coll_le (s1 s2 : string) : Prop := coll_compare s1 s2 ≠ Gt.

Definition coll_eq (s1 s2 : string) : Prop := upper s1 = upper s2.

#[global] Instance coll_le_dec s1 s2 : Decision (coll_le s1 s2).
Proof. unfold coll_le. solve_decision. Defined.

#[global] Instance coll_eq_dec s1 s2 : Decision (coll_eq s1 s2).
Proof. unfold coll_eq. solve_decision. Defined.

(** ** The [LIKE] operator

    [%] matches any sequence of characters, [_] any single character, a
    backslash makes the character after it literal (a backslash at the
    very end of the pattern stands for itself); every other character
    matches under the collation. *)

Fixpoint like (p s : list ascii) {struct p} : bool :=
  match p with
  | [] => match s with [] => true | _ => false end
  | c :: p' =>
    if Ascii.eqb c "%" then
      (fix any (s : list ascii) : bool :=
         like p' s || match s with [] => false | _ :: s' => any s' end) s
    else if Ascii.eqb c "_" then
      match s with [] => false | _ :: s' => like p' s' end
    else if Ascii.eqb c "\" then
      match p' with
      | [] => match s with [x] => coll_eqb c x | _ => false end
      | e :: p'' =>
        match s with [] => false | x :: s' => coll_eqb e x && like p'' s' end
      end
    else
      match s with [] => false | x :: s' => coll_eqb c x && like p' s' end
  end.

Definition sql_like (subject pattern : string) : bool :=
  like (list_ascii_of_string pattern) (list_ascii_of_string subject).

(** ** Evaluation of the two search statements of [sql_queries] *)

(** One row of
    [film f JOIN film_category fc JOIN category c JOIN film_actor fa JOIN actor a]. *)
Record joined := Joined {
  jf : film;
  jfc : film_category;
  jc : category;
  jfa : film_actor;
  ja : actor }.

(** [FROM film f JOIN film_category fc USING(film_id) JOIN category c
    USING(category_id) JOIN film_actor fa USING(film_id) JOIN actor a
    USING(actor_id)]: inner joins, so a row exists only for a film with a
    category link to an existing category and an actor link to an
    existing actor. *)
Definition from_joins (cat : catalog) : list joined :=
  f ← films cat;
  fc ← filter (λ fc, fc_film_id fc = film_id f) (film_categories cat);
  c ← filter (λ c, category_id c = fc_category_id fc) (categories cat);
  fa ← filter (λ fa, fa_film_id fa = film_id f) (film_actors cat);
  a ← filter (λ a, actor_id a = fa_actor_id fa) (actors cat);
  mret (Joined f fc c fa a).

(** [GROUP BY f.film_id]: one group per film id.  A group is kept as its
    first row, from which the columns outside the aggregate are read,
    together with all its rows. *)
Fixpoint first_per_film (rows : list joined) : list joined :=
  match rows with
  | [] => []
  | r :: rs =>
    r :: filter (λ r', film_id (jf r') ≠ film_id (jf r)) (first_per_film rs)
  end.

Definition group_by_film_id (rows : list joined) : list (joined * list joined) :=
  (λ r, (r, filter (λ r', film_id (jf r') = film_id (jf r)) rows))
    <$> first_per_film rows.

(** [CONCAT(a.first_name, ' ', a.last_name)] *)
Definition full_name (a : actor) : string :=
  first_name a +:+ " " +:+ last_name a.

Fixpoint join_with (sep : string) (l : list string) : string :=
  match l with
  | [] => ""
  | [x] => x
  | x :: l' => x +:+ sep +:+ join_with sep l'
  end.

(** [GROUP_CONCAT(DISTINCT CONCAT(...) ORDER BY a.last_name SEPARATOR ', ')]
    over the rows of one group (the server's [group_concat_max_len] cut is
    a server setting and is not part of the statement). *)
Definition group_concat_actors (g : list joined) : string :=
  let ordered := merge_sort (λ a b, coll_le (last_name a) (last_name b)) (ja <$> g) in
  join_with ", " (remove_dups (full_name <$> ordered)).

(** A row of the result set, still tagged with the grouping key. *)
Record film_row := FilmRow {
  row_film_id : Z;
  row_title : string;
  row_year : Z;
  row_rating : string;
  row_genre : string;
  row_actors : string }.

(** The select list [f.title, f.release_year AS year, f.rating,
    c.name AS genre, GROUP_CONCAT(...) AS actors]. *)
Definition select_list (g : joined * list joined) : film_row :=
  let r := g.1 in
  {| row_film_id := film_id (jf r);
     row_title := title (jf r);
     row_year := release_year (jf r);
     row_rating := rating (jf r);
     row_genre := name (jc r);
     row_actors := group_concat_actors g.2 |}.

(** [ORDER BY f.title] *)
Definition by_title (r1 r2 : film_row) : Prop :=
  coll_le (row_title r1) (row_title r2).

(** [ORDER BY f.release_year, f.title] *)
Definition by_year_title (r1 r2 : film_row) : Prop :=
  row_year r1 < row_year r2 ∨
  (row_year r1 = row_year r2 ∧ coll_le (row_title r1) (row_title r2)).

#[global] Instance by_title_dec r1 r2 : Decision (by_title r1 r2).
Proof. unfold by_title. apply _. Defined.

#[global] Instance by_year_title_dec r1 r2 : Decision (by_year_title r1 r2).
Proof. unfold by_year_title. apply _. Defined.

(** Neither [ORDER BY] names a key that tells two films apart: rows that
    are equal in the columns it names come in the order the server gives
    them at that execution.  That order is taken from the environment, as
    a rank of the film ids: of two rows that [R] leaves tied the one whose
    film has the lower rank comes first. *)
Definition ties_by (rank : Z → Z) (R : relation film_row) : relation film_row :=
  λ r1 r2, R r1 r2 ∧ (R r2 r1 → rank (row_film_id r1) ≤ rank (row_film_id r2)).

#[global] Instance ties_by_dec rank R `{!∀ r1 r2, Decision (R r1 r2)} r1 r2 :
  Decision (ties_by rank R r1 r2).
Proof. unfold ties_by. apply _. Defined.

(** [LIMIT l OFFSET o] *)
Definition limit_offset {A} (l o : Z) (rows : list A) : list A :=
  take (Z.to_nat l) (drop (Z.to_nat o) rows).

(** The result set of [SEARCH_BY_KEYWORD] before [LIMIT]/[OFFSET], at an
    execution at which the server orders tied rows by [rank]. *)
Definition keyword_matches (rank : Z → Z) (cat : catalog) (pattern : string)
  : list film_row :=
  merge_sort (ties_by rank by_title)
    (select_list <$>
       group_by_film_id
         (filter (λ r, sql_like (title (jf r)) pattern = true) (from_joins cat))).

(** The result set of [SEARCH_BY_GENRE_AND_YEAR] before [LIMIT]/[OFFSET]:
    [WHERE c.name = %s AND f.release_year BETWEEN %s AND %s]. *)
Definition genre_year_matches (rank : Z → Z) (cat : catalog)
    (genre : string) (year_from year_to : Z) : list film_row :=
  merge_sort (ties_by rank by_year_title)
    (select_list <$>
       group_by_film_id
         (filter (λ r, coll_eq (name (jc r)) genre ∧
                        year_from ≤ release_year (jf r) ≤ year_to)
                 (from_joins cat))).

(** [SELECT name FROM category ORDER BY name] *)
Definition all_genre_names (cat : catalog) : list string :=
  merge_sort coll_le (name <$> categories cat).

(** [MIN] and [MAX] over a column: [NULL] when there is no row. *)
Definition sql_min (l : list Z) : pyval :=
  match l with
  | [] => PyNone
  | x :: l' => PyInt (foldr Z.min x l')
  end.

Definition sql_max (l : list Z) : pyval :=
  match l with
  | [] => PyNone
  | x :: l' => PyInt (foldr Z.max x l')
  end.

(** The dictionary [DictCursor] builds from a row of a search. *)
Definition row_dict (r : film_row) : pydict :=
  {[ "title" := PyStr (row_title r);
     "year" := PyInt (row_year r);
     "rating" := PyStr (row_rating r);
     "genre" := PyStr (row_genre r);
     "actors" := PyStr (row_actors r) ]}.

(** The four statements of [sql_queries], with their bound parameters. *)
Inductive statement :=
| SEARCH_BY_KEYWORD (pattern : string) (limit offset : Z)
| SEARCH_BY_GENRE_AND_YEAR (genre : string) (year_from year_to limit offset : Z)
| GET_ALL_GENRES
| GET_YEAR_RANGE.

(** Rows of a search statement, tagged with the film id; [None] when the
    server rejects the statement (a negative [LIMIT] or [OFFSET] is a
    syntax error), and for the two statements that are not searches. *)
Definition search_rows (rank : Z → Z) (cat : catalog) (q : statement)
  : option (list film_row) :=
  match q with
  | SEARCH_BY_KEYWORD pattern limit offset =>
    if decide (0 ≤ limit ∧ 0 ≤ offset)
    then Some (limit_offset limit offset (keyword_matches rank cat pattern))
    else None
  | SEARCH_BY_GENRE_AND_YEAR genre year_from year_to limit offset =>
    if decide (0 ≤ limit ∧ 0 ≤ offset)
    then Some (limit_offset limit offset
                 (genre_year_matches rank cat genre year_from year_to))
    else None
  | GET_ALL_GENRES | GET_YEAR_RANGE => None
  end.

(** [cursor.execute(query, params)] followed by [cursor.fetchall()]: the
    whole result set, or [None] for a [MySQLError]; [rank] is the order
    of tied rows at this execution. *)
Definition cursor_execute (rank : Z → Z) (cat : catalog) (q : statement)
  : option (list pydict) :=
  match q with
  | SEARCH_BY_KEYWORD _ _ _ | SEARCH_BY_GENRE_AND_YEAR _ _ _ _ _ =>
    fmap (M := list) row_dict <$> search_rows rank cat q
  | GET_ALL_GENRES =>
    Some ((λ n, {[ "name" := PyStr n ]}) <$> all_genre_names cat)
  | GET_YEAR_RANGE =>
    Some [ {[ "min_year" := sql_min (release_year <$> films cat);
              "max_year" := sql_max (release_year <$> films cat) ]} ]
  end.

(** ** Exceptions *)

Inductive exn :=
| ValueError (msg : string)
| TypeError (msg : string)
| KeyError (key : string)
| EOFError.

Inductive outcome (A : Type) :=
| Ok (a : A)
| Raise (e : exn).
Arguments Ok {A} a.
Arguments Raise {A} e.

(** Sequencing: an exception ends the computation. *)
#[global] Instance outcome_ret : MRet outcome := λ A a, Ok a.

#[global] Instance outcome_bind : MBind outcome := λ A B f m,
  match m with
  | Ok a => f a
  | Raise e => Raise e
  end.

(** ** Environment and process state *)

(** What the catalog server does with one connection. *)
Inductive server_status :=
| Reachable       (* connects and answers *)
| ConnectError    (* [pymysql.connect] raises [MySQLError] *)
| QueryError.     (* connects, then [cursor.execute] raises [MySQLError] *)

Record env := Env {
  the_catalog : catalog;              (* content of the catalog: the client only reads it *)
  mysql_status : nat → server_status; (* by number of the connection attempt *)
  row_rank : nat → Z → Z;             (* by number of the connection: the rank of each film id
                                         among rows an [ORDER BY] leaves tied *)
  mongo_connect_ok : nat → bool;      (* by number of the [MongoClient]: does [server_info()] answer *)
  mongo_op_ok : nat → bool;           (* by number of the operation: does it succeed *)
  utcnow : nat → Z }.                 (* [datetime.utcnow()], by number of the operation *)

(** A logged Search Event, as [log_search] builds it. *)
Record doc := Doc {
  timestamp : Z;
  search_type : string;
  params : pydict;
  results_count : Z }.

(** The module globals [_mongo_client] and [_mongo_collection]; a handle is
    the number of the [MongoClient] it belongs to. *)
Record mongo_globals := MongoGlobals {
  _mongo_client : option nat;
  _mongo_collection : option nat }.

Record state := State {
  mysql_connects : nat;       (* calls of [pymysql.connect] so far *)
  mysql_open : list nat;      (* connections opened and not closed *)
  mongo_clients : nat;        (* [MongoClient] objects created so far *)
  mongo_ops : nat;            (* operations sent to the analytics server so far *)
  stored : list doc;          (* the analytics collection, in insertion order;
                                 the read URL and the write URL lead to it *)
  writer_globals : mongo_globals; (* globals of module [log_writer] *)
  reader_globals : mongo_globals }. (* globals of module [log_stats] *)

Definition initial_state : state :=
  {| mysql_connects := 0; mysql_open := [];
     mongo_clients := 0; mongo_ops := 0; stored := [];
     writer_globals := MongoGlobals None None;
     reader_globals := MongoGlobals None None |}.

(** ** Module [mysql_connector] *)

(** [get_db_connection]: a new connection at every call, or [None]. *)
Definition get_db_connection (E : env) (st : state) : state * option nat :=
  let n := mysql_connects st in
  match mysql_status E n with
  | ConnectError =>
    (State (S n) (mysql_open st) (mongo_clients st) (mongo_ops st)
           (stored st) (writer_globals st) (reader_globals st), None)
  | _ =>
    (State (S n) (n :: mysql_open st) (mongo_clients st) (mongo_ops st)
           (stored st) (writer_globals st) (reader_globals st), Some n)
  end.

(** [conn.close()] *)
Definition conn_close (conn : nat) (st : state) : state :=
  State (mysql_connects st) (filter (λ c, c ≠ conn) (mysql_open st))
        (mongo_clients st) (mongo_ops st) (stored st) (writer_globals st) (reader_globals st).

(** What [execute_query] returns: the list of [fetchall()] (also the empty
    list of the error paths), or the row or [None] of [fetchone()]. *)
Inductive query_result :=
| Rows (rows : list pydict)
| OneRow (row : option pydict).

(** Truth value of a query result: an empty list, [None] and an empty
    dictionary are false. *)
Definition result_truthy (r : query_result) : bool :=
  match r with
  | Rows rows => negb (bool_decide (rows = []))
  | OneRow None => false
  | OneRow (Some d) => negb (bool_decide (d = ∅))
  end.

Definition execute_query (E : env) (st : state) (query : statement) (fetch_all : bool)
  : state * query_result :=
  let '(st1, conn) := get_db_connection E st in
  match conn with
  | None => (st1, Rows [])
  | Some c =>
    let res :=
      match mysql_status E c with
      | Reachable =>
        match cursor_execute (row_rank E c) (the_catalog E) query with
        | Some rows => if fetch_all then Rows rows else OneRow (head rows)
        | None => Rows []
        end
      | _ => Rows []
      end in
    (conn_close c st1, res)
  end.

Definition search_by_keyword (E : env) (st : state) (keyword : string) (limit offset : Z)
  : state * query_result :=
  execute_query E st (SEARCH_BY_KEYWORD ("%" +:+ keyword +:+ "%") limit offset) true.

Definition search_by_genre_and_year (E : env) (st : state)
    (genre : string) (year_from year_to limit offset : Z) : state * query_result :=
  execute_query E st (SEARCH_BY_GENRE_AND_YEAR genre year_from year_to limit offset) true.

(** [row['name']] and the like. *)
Definition getitem (d : pydict) (k : string) : outcome pyval :=
  match d !! k with
  | Some v => Ok v
  | None => Raise (KeyError k)
  end.

(** [[row['name'] for row in result] if result else []] *)
Fixpoint names_of (rows : list pydict) : outcome (list pyval) :=
  match rows with
  | [] => Ok []
  | row :: rows' =>
    v ← getitem row "name";
    vs ← names_of rows';
    mret (v :: vs)
  end.

Definition get_all_genres (E : env) (st : state) : state * outcome (list pyval) :=
  let '(st1, result) := execute_query E st GET_ALL_GENRES true in
  (st1, match result with
        | Rows rows => names_of rows
        | OneRow _ => Ok []
        end).

(** [(result['min_year'], result['max_year']) if result else (0, 0)] *)
Definition get_year_range (E : env) (st : state) : state * outcome (pyval * pyval) :=
  let '(st1, result) := execute_query E st GET_YEAR_RANGE false in
  (st1,
   if result_truthy result then
     match result with
     | OneRow (Some d) =>
       lo ← getitem d "min_year";
       hi ← getitem d "max_year";
       mret (lo, hi)
     | _ => Raise (TypeError "list indices must be integers or slices, not str")
     end
   else Ok (PyInt 0, PyInt 0)).

(** ** Connection reuse, common to [log_writer] and [log_stats]

    Both modules define [_get_mongo_collection] with the same body (they
    differ in the URL they read).  [clients] is the number of
    [MongoClient] objects created so far and [g] the globals of the
    module.  The client is assigned to [_mongo_client] before
    [server_info()] is tried, so a failed attempt leaves the client set
    and the collection unset. *)
Definition get_mongo_collection_body (E : env) (clients : nat) (g : mongo_globals)
  : nat * mongo_globals * option nat :=
  match _mongo_collection g with
  | Some h => (clients, g, Some h)
  | None =>
    if mongo_connect_ok E clients
    then (S clients, MongoGlobals (Some clients) (Some clients), Some clients)
    else (S clients, MongoGlobals (Some clients) None, None)
  end.

(** ** Module [log_writer] *)
Module log_writer.

Definition _get_mongo_collection (E : env) (st : state) : state * option nat :=
  let '(n, g, h) := get_mongo_collection_body E (mongo_clients st) (writer_globals st) in
  (State (mysql_connects st) (mysql_open st) n (mongo_ops st) (stored st)
         g (reader_globals st), h).

(** [log_search]: one document appended, with the clock reading, when
    the collection is available and [insert_one] succeeds. *)
Definition log_search (E : env) (st : state)
    (search_type : string) (params : pydict) (results_count : Z) : state * bool :=
  let '(st1, collection) := _get_mongo_collection E st in
  match collection with
  | None => (st1, false)
  | Some _ =>
    let n := mongo_ops st1 in
    let doc := {| timestamp := utcnow E n; search_type := search_type;
                  params := params; results_count := results_count |} in
    if mongo_op_ok E n
    then (State (mysql_connects st1) (mysql_open st1) (mongo_clients st1) (S n)
                (stored st1 ++ [doc]) (writer_globals st1) (reader_globals st1),
          true)
    else (State (mysql_connects st1) (mysql_open st1) (mongo_clients st1) (S n)
                (stored st1) (writer_globals st1) (reader_globals st1),
          false)
  end.

(** [close_connection]: closes the client, if there is one, and clears
    both globals. *)
Definition close_connection (st : state) : state :=
  match _mongo_client (writer_globals st) with
  | Some _ =>
    State (mysql_connects st) (mysql_open st) (mongo_clients st) (mongo_ops st)
          (stored st) (MongoGlobals None None) (reader_globals st)
  | None => st
  end.

End log_writer.

(** ** Module [log_stats] *)

(** The [_id] of a group: the three fields of [params]; a field the
    document does not have is absent from the [_id]. *)
Record group_id := GroupId {
  id_keyword : option pyval;
  id_genre : option pyval;
  id_year_range : option pyval }.

#[global] Instance group_id_eq_dec : EqDecision group_id.
Proof. solve_decision. Defined.

(** A document of the aggregation: [{"_id": {...}, "count": n}]. *)
Record popular := Popular {
  _id : group_id;
  count : Z }.

Module log_stats.

Definition _get_mongo_collection (E : env) (st : state) : state * option nat :=
  let '(n, g, h) := get_mongo_collection_body E (mongo_clients st) (reader_globals st) in
  (State (mysql_connects st) (mysql_open st) n (mongo_ops st) (stored st)
         (writer_globals st) g, h).

(** [{"keyword": "$params.keyword", "genre": "$params.genre",
      "year_range": "$params.year_range"}] *)
Definition group_key (d : doc) : group_id :=
  {| id_keyword := params d !! "keyword";
     id_genre := params d !! "genre";
     id_year_range := params d !! "year_range" |}.

(** [$group] with ["count": {"$sum": 1}] *)
Definition group_stage (docs : list doc) : list popular :=
  (λ k, {| _id := k;
           count := Z.of_nat (length (filter (λ d, group_key d = k) docs)) |})
    <$> remove_dups (group_key <$> docs).

(** [{"$sort": {"count": -1}}] *)
Definition by_count_desc (a b : popular) : Prop := count b ≤ count a.

#[global] Instance by_count_desc_dec a b : Decision (by_count_desc a b).
Proof. unfold by_count_desc. apply _. Defined.

Definition sort_stage (groups : list popular) : list popular :=
  merge_sort by_count_desc groups.

(** [{"$limit": limit}]: the server rejects a limit that is not
    positive. *)
Definition limit_stage (limit : Z) (groups : list popular) : option (list popular) :=
  if decide (0 < limit) then Some (take (Z.to_nat limit) groups) else None.

(** [collection.aggregate(pipeline)]: [None] for a [PyMongoError]. *)
Definition aggregate (docs : list doc) (limit : Z) : option (list popular) :=
  limit_stage limit (sort_stage (group_stage docs)).

(** Advance the operation counter. *)
Definition count_op (st : state) : state :=
  State (mysql_connects st) (mysql_open st) (mongo_clients st) (S (mongo_ops st))
        (stored st) (writer_globals st) (reader_globals st).

Definition get_popular_queries (E : env) (st : state) (limit : Z)
  : state * list popular :=
  let '(st1, collection) := _get_mongo_collection E st in
  match collection with
  | None => (st1, [])
  | Some _ =>
    (count_op st1,
     if mongo_op_ok E (mongo_ops st1)
     then default [] (aggregate (stored st1) limit)
     else [])
  end.

(** [.sort("timestamp", -1)] *)
Definition by_timestamp_desc (a b : doc) : Prop := timestamp b ≤ timestamp a.

#[global] Instance by_timestamp_desc_dec a b : Decision (by_timestamp_desc a b).
Proof. unfold by_timestamp_desc. apply _. Defined.

(** [.limit(limit)] of a cursor: [0] means no limit, a negative limit
    stands for its absolute value. *)
Definition cursor_limit (limit : Z) (docs : list doc) : list doc :=
  if decide (limit = 0) then docs else take (Z.to_nat (Z.abs limit)) docs.

(** [collection.find().sort("timestamp", -1).limit(limit)] *)
Definition find_sort_limit (docs : list doc) (limit : Z) : list doc :=
  cursor_limit limit (merge_sort by_timestamp_desc docs).

Definition get_recent_queries (E : env) (st : state) (limit : Z)
  : state * list doc :=
  let '(st1, collection) := _get_mongo_collection E st in
  match collection with
  | None => (st1, [])
  | Some _ =>
    (count_op st1,
     if mongo_op_ok E (mongo_ops st1)
     then find_sort_limit (stored st1) limit
     else [])
  end.

End log_stats.

(** ** Module [formatter]

    Text is a sequence of ASCII characters here: [strip] and [upper]
    follow [str.strip] and [str.upper] on those, and say nothing about
    text with other characters. *)

(** [str(v)] *)
Definition py_str (v : pyval) : string :=
  match v with
  | PyNone => "None"
  | PyInt z => pretty z
  | PyStr s => s
  end.

(** White space as [str.strip] sees it. *)
Definition py_is_space (c : ascii) : bool :=
  let n := N_of_ascii c in
  ((9 <=? n) && (n <=? 13) || (28 <=? n) && (n <=? 32))%N.

Fixpoint lstrip (s : string) : string :=
  match s with
  | EmptyString => EmptyString
  | String c s' => if py_is_space c then lstrip s' else s
  end.

Definition strip (s : string) : string :=
  String.rev (lstrip (String.rev (lstrip s))).

(** [s[:m]] on a string and on a list: a negative bound counts from the
    end. *)
Definition str_slice_to (s : string) (m : Z) : string :=
  if decide (0 ≤ m) then substring 0 (Z.to_nat m) s
  else substring 0 (String.length s - Z.to_nat (- m)) s.

Definition list_slice_to {A} (l : list A) (m : Z) : list A :=
  if decide (0 ≤ m) then take (Z.to_nat m) l
  else take (length l - Z.to_nat (- m)) l.

(** [truncate_text]: the empty string for a false value; [len] of an
    integer raises. *)
Definition truncate_text (text : pyval) (max_len : Z) : outcome string :=
  if negb (truthy text) then Ok ""%string
  else
    match text with
    | PyStr s =>
      if decide (max_len < Z.of_nat (String.length s))
      then Ok (str_slice_to s max_len +:+ "...")
      else Ok s
    | _ => Raise (TypeError "object of type 'int' has no len()")
    end.

(** The [colorama] codes. *)
Definition esc : string := String (ascii_of_nat 27) "[".
Definition LIGHTGREEN_EX : string := esc +:+ "92m".
Definition LIGHTYELLOW_EX : string := esc +:+ "93m".
Definition LIGHTRED_EX : string := esc +:+ "91m".
Definition RESET_ALL : string := esc +:+ "0m".

(** [color_rating]: the rating in upper case without surrounding white
    space, wrapped in the colour of its class. *)
Definition color_rating (rating : pyval) : string :=
  let rating_str := upper (strip (py_str rating)) in
  if decide (rating_str = "G") then LIGHTGREEN_EX +:+ rating_str +:+ RESET_ALL
  else if decide (rating_str ∈ ["PG"; "PG-13"; "R"]%string)
       then LIGHTYELLOW_EX +:+ rating_str +:+ RESET_ALL
  else if decide (rating_str = "NC-17") then LIGHTRED_EX +:+ rating_str +:+ RESET_ALL
  else rating_str.

(** An element of the [results] list handed to [format_results]. *)
Inductive entry :=
| EDict (d : pydict)
| ETuple (t : list pyval)
| EOther (v : pyval).   (* neither a dict nor a tuple *)

(** [movie.get(key, "")] *)
Definition dict_get (d : pydict) (key : string) : pyval :=
  default (PyStr "") (d !! key).

(** [table.add_row(row)] of a table with the five [table_headers]: the
    library refuses a row of another length, with the two lengths in its
    message. *)
Definition add_row (row : list pyval) : outcome (list pyval) :=
  if decide (length row = 5%nat) then Ok row
  else Raise (ValueError ("Row has incorrect number of values, (actual) " +:+
                          pretty (length row) +:+ "!=5 (expected)")).

(** The body of the loop of [format_results] for one element. *)
Definition render_row (movie : entry) : outcome (list pyval) :=
  match movie with
  | EDict d =>
    let title := dict_get d "title" in
    let year := dict_get d "year" in
    let rating := PyStr (color_rating (dict_get d "rating")) in
    let genre := dict_get d "genre" in
    actors ← truncate_text (dict_get d "actors") 85;
    add_row [title; year; rating; genre; PyStr actors]
  | ETuple t =>
    let row := take 5 t in
    let row :=
      match row !! 2%nat with
      | Some r => <[2%nat := PyStr (color_rating r)]> row
      | None => row
      end in
    match row !! 4%nat with
    | Some a =>
      actors ← truncate_text a 85;
      add_row (<[4%nat := PyStr actors]> row)
    | None => add_row row
    end
  | EOther _ => Raise (ValueError "Unsupported data format")
  end.

(** The loop [for movie in results[:max_rows]]: it stops at the first
    element that raises. *)
Fixpoint add_rows (movies : list entry) : outcome (list (list pyval)) :=
  match movies with
  | [] => Ok []
  | movie :: movies' =>
    row ← render_row movie;
    rows ← add_rows movies';
    mret (row :: rows)
  end.

(** What [format_results] prints: the message for an empty list, or the
    table (the layout and colouring of the table are the library's and
    cannot fail). Nothing is printed before the loop has ended. *)
Inductive printed :=
| NoResultsFound
| Table (rows : list (list pyval)).

Definition format_results (results : list entry) (max_rows : Z) : outcome printed :=
  match results with
  | [] => Ok NoResultsFound
  | _ =>
    rows ← add_rows (list_slice_to results max_rows);
    mret (Table rows)
  end.

(** ** Module [main] *)

(** [int(s)]: white space is stripped, then an optional sign and decimal
    digits, in which single underscores may separate digits. *)
Fixpoint digits_go (acc : Z) (after_digit : bool) (s : string) : option Z :=
  match s with
  | EmptyString => if after_digit then Some acc else None
  | String c s' =>
    match Ascii.is_nat c with
    | Some d => digits_go (10 * acc + Z.of_nat d) true s'
    | None =>
      if Ascii.eqb c "_" && after_digit then digits_go acc false s' else None
    end
  end.

Definition py_int (s : string) : outcome Z :=
  let t := strip s in
  let '(negative, body) :=
    match t with
    | String c r =>
      if Ascii.eqb c "-" then (true, r)
      else if Ascii.eqb c "+" then (false, r)
      else (false, t)
    | EmptyString => (false, t)
    end in
  match digits_go 0 false body with
  | Some n => Ok (if negative : bool then - n else n)
  | None => Raise (ValueError "invalid literal for int() with base 10")
  end.

(** [lo <= y <= hi] for an integer [y]: comparing [None] or a string with
    an integer raises; the second comparison is made only when the first
    holds. *)
Definition in_range (lo hi : pyval) (y : Z) : outcome bool :=
  match lo with
  | PyInt l =>
    if l <=? y then
      match hi with
      | PyInt h => Ok (y <=? h)
      | _ => Raise (TypeError "'<=' not supported")
      end
    else Ok false
  | _ => Raise (TypeError "'<=' not supported")
  end.

(** The rows of a [fetch_all=True] result. *)
Definition as_list (r : query_result) : list pydict :=
  match r with
  | Rows rows => rows
  | OneRow _ => []
  end.

(** One search of the application loop: the statement issued, the page
    variable of the loop, the rows the search call returned, and the
    event the log call appended to the collection, if it appended one. *)
Record search_step := SearchStep {
  step_statement : statement;
  step_page : Z;
  step_results : list pydict;
  step_event : option doc }.

(** The event a [log_search] call appended, read from the collection. *)
Definition appended (ok : bool) (st : state) : option doc :=
  if ok then last (stored st) else None.

(** The body of the pagination loop of the keyword search, up to the
    navigation prompt. *)
Definition keyword_iteration (E : env) (st : state) (keyword : string) (page : Z)
  : state * outcome search_step :=
  let offset := (page - 1) * 10 in
  let '(st1, res) := search_by_keyword E st keyword 10 offset in
  let results := as_list res in
  match format_results (EDict <$> results) 10 with
  | Raise e => (st1, Raise e)
  | Ok _ =>
    let '(st2, ok) :=
      log_writer.log_search E st1 "keyword"
        {[ "keyword" := PyStr keyword; "page" := PyInt (page + 1) ]}
        (Z.of_nat (length results)) in
    (st2, Ok {| step_statement := SEARCH_BY_KEYWORD ("%" +:+ keyword +:+ "%") 10 offset;
                step_page := page;
                step_results := results;
                step_event := appended ok st2 |})
  end.

(** The body of the pagination loop of the genre and year search. *)
Definition genre_iteration (E : env) (st : state)
    (genre : string) (year_from year_to : Z) (year_choice : string) (page : Z)
  : state * outcome search_step :=
  let offset := (page - 1) * 10 in
  let '(st1, res) := search_by_genre_and_year E st genre year_from year_to 10 offset in
  let results := as_list res in
  match format_results (EDict <$> results) 10 with
  | Raise e => (st1, Raise e)
  | Ok _ =>
    let year_param :=
      if decide (year_choice = "1") then pretty year_from
      else pretty year_from +:+ "-" +:+ pretty year_to in
    let '(st2, ok) :=
      log_writer.log_search E st1 "genre_year"
        {[ "genre" := PyStr genre; "year_range" := PyStr year_param ]}
        (Z.of_nat (length results)) in
    (st2, Ok {| step_statement :=
                  SEARCH_BY_GENRE_AND_YEAR genre year_from year_to 10 offset;
                step_page := page;
                step_results := results;
                step_event := appended ok st2 |})
  end.

(** Where the loop of [main] waits for a line of input. *)
Inductive mode :=
| Menu
| AskKeyword
| KeywordNav (keyword : string) (page : Z)
| AskGenre (genres : list pyval) (min_year max_year : pyval)
| AskYearChoice (genre : string) (min_year max_year : pyval)
| AskYear (genre : string) (min_year max_year : pyval)
| AskYearFrom (genre : string) (min_year max_year : pyval)
| AskYearTo (genre : string) (min_year max_year : pyval) (year_from : Z)
| GenreNav (genre : string) (year_from year_to : Z) (year_choice : string) (page : Z)
| Exited
| Crashed (e : exn).

(** The statistics tables shown by choices 3 and 4. *)
Inductive shown :=
| ShownPopular (queries : list popular)
| ShownRecent (queries : list doc).

Record application := App {
  app_state : state;
  app_mode : mode;
  app_steps : list search_step;   (* the searches performed, oldest first *)
  app_shown : list shown }.

(** Run one iteration of a pagination loop and wait for the navigation
    choice. *)
Definition paginate (a : application) (r : state * outcome search_step) (next : mode) : application :=
  match r.2 with
  | Ok s => App r.1 next (app_steps a ++ [s]) (app_shown a)
  | Raise e => App r.1 (Crashed e) (app_steps a) (app_shown a)
  end.

(** The page after a navigation choice: [1] goes back unless on the first
    page, [2] goes forward, anything else stays. *)
Definition navigate (nav : string) (page : Z) : Z :=
  if decide (nav = "1") then (if decide (1 < page) then page - 1 else page)
  else if decide (nav = "2") then page + 1
  else page.

Definition set_mode (a : application) (st : state) (m : mode) : application :=
  App st m (app_steps a) (app_shown a).

(** One line of input consumed by [main]. *)
Definition step (E : env) (a : application) (line : string) : application :=
  let st := app_state a in
  match app_mode a with
  | Menu =>
    if decide (line = "1") then set_mode a st AskKeyword
    else if decide (line = "2") then
      let '(st1, genres) := get_all_genres E st in
      match genres with
      | Raise e => set_mode a st1 (Crashed e)
      | Ok genres =>
        let '(st2, range) := get_year_range E st1 in
        match range with
        | Raise e => set_mode a st2 (Crashed e)
        | Ok (min_year, max_year) => set_mode a st2 (AskGenre genres min_year max_year)
        end
      end
    else if decide (line = "3") then
      let '(st1, queries) := log_stats.get_popular_queries E st 5 in
      App st1 Menu (app_steps a) (app_shown a ++ [ShownPopular queries])
    else if decide (line = "4") then
      let '(st1, queries) := log_stats.get_recent_queries E st 5 in
      App st1 Menu (app_steps a) (app_shown a ++ [ShownRecent queries])
    else if decide (line = "5") then set_mode a st Exited
    else a
  | AskKeyword =>
    paginate a (keyword_iteration E st line 1) (KeywordNav line 1)
  | KeywordNav keyword page =>
    if decide (line = "3") then set_mode a st Menu
    else
      let page' := navigate line page in
      paginate a (keyword_iteration E st keyword page') (KeywordNav keyword page')
  | AskGenre genres min_year max_year =>
    let genre := strip line in
    if decide (PyStr genre ∈ genres)
    then set_mode a st (AskYearChoice genre min_year max_year)
    else set_mode a st Menu
  | AskYearChoice genre min_year max_year =>
    let year_choice := strip line in
    if decide (year_choice = "1") then set_mode a st (AskYear genre min_year max_year)
    else if decide (year_choice = "2")
         then set_mode a st (AskYearFrom genre min_year max_year)
    else set_mode a st Menu
  | AskYear genre min_year max_year =>
    match py_int line with
    | Raise _ => a
    | Ok year =>
      match in_range min_year max_year year with
      | Raise e => set_mode a st (Crashed e)
      | Ok true =>
        paginate a (genre_iteration E st genre year year "1" 1)
                 (GenreNav genre year year "1" 1)
      | Ok false => a
      end
    end
  | AskYearFrom genre min_year max_year =>
    match py_int line with
    | Raise _ => a
    | Ok year_from => set_mode a st (AskYearTo genre min_year max_year year_from)
    end
  | AskYearTo genre min_year max_year year_from =>
    let again := set_mode a st (AskYearFrom genre min_year max_year) in
    match py_int line with
    | Raise _ => again
    | Ok year_to =>
      match in_range min_year max_year year_from with
      | Raise e => set_mode a st (Crashed e)
      | Ok false => again
      | Ok true =>
        match in_range min_year max_year year_to with
        | Raise e => set_mode a st (Crashed e)
        | Ok false => again
        | Ok true =>
          if decide (year_to < year_from) then again
          else paginate a (genre_iteration E st genre year_from year_to "2" 1)
                        (GenreNav genre year_from year_to "2" 1)
        end
      end
    end
  | GenreNav genre year_from year_to year_choice page =>
    if decide (line = "3") then set_mode a st Menu
    else
      let page' := navigate line page in
      paginate a (genre_iteration E st genre year_from year_to year_choice page')
               (GenreNav genre year_from year_to year_choice page')
  | Exited => a
  | Crashed _ => a
  end.

(** [main] run on the lines typed so far. *)
Definition main (E : env) (st : state) (inputs : list string) : application :=
  foldl (step E) (App st Menu [] []) inputs.

(** ** Predicates used to state the properties of the catalog client *)

(** The characters [LIKE] treats specially. *)
Definition like_special (c : ascii) : bool :=
  Ascii.eqb c "%" || Ascii.eqb c "_" || Ascii.eqb c "\".

(** A keyword none of whose characters is special for [LIKE]. *)
Definition plain_keyword (k : string) : Prop :=
  Forall (λ c, like_special c = false) (list_ascii_of_string k).

#[global] Instance plain_keyword_dec k : Decision (plain_keyword k).
Proof. unfold plain_keyword. apply _. Defined.

(** The specification's words: the title contains the keyword as a
    substring, case-insensitively. *)
Definition contains_ci (k t : string) : Prop :=
  ∃ pre mid post, t = pre +:+ mid +:+ post ∧ coll_eq mid k.

(** The film has a category link to an existing category. *)
Definition has_category (cat : catalog) (i : Z) : Prop :=
  ∃ fc c, fc ∈ film_categories cat ∧ fc_film_id fc = i ∧
          c ∈ categories cat ∧ category_id c = fc_category_id fc.

(** The film has an actor link to an existing actor. *)
Definition has_actor (cat : catalog) (i : Z) : Prop :=
  ∃ fa a, fa ∈ film_actors cat ∧ fa_film_id fa = i ∧
          a ∈ actors cat ∧ actor_id a = fa_actor_id fa.

(** [film_id] is the primary key of [film]. *)
Definition film_id_is_key (cat : catalog) : Prop := NoDup (film_id <$> films cat).

#[global] Instance film_id_is_key_dec cat : Decision (film_id_is_key cat).
Proof. unfold film_id_is_key. apply _. Defined.

(** The groups of the rows that satisfy a [WHERE] condition, through the
    select list. *)
Definition grouped (cat : catalog) (P : joined → Prop) `{!∀ r, Decision (P r)}
  : list film_row :=
  select_list <$> group_by_film_id (filter P (from_joins cat)).

(** The two search statements. *)
Definition is_search (q : statement) : Prop :=
  match q with
  | SEARCH_BY_KEYWORD _ _ _ | SEARCH_BY_GENRE_AND_YEAR _ _ _ _ _ => True
  | _ => False
  end.

(** The tagged rows the server sends back for a search statement issued
    in state [st]: nothing when the connection or the statement fails. *)
Definition answered_rows (E : env) (st : state) (q : statement) : list film_row :=
  match mysql_status E (mysql_connects st) with
  | Reachable =>
    default [] (search_rows (row_rank E (mysql_connects st)) (the_catalog E) q)
  | _ => []
  end.

(** The link rows of a film. *)
Definition actor_links (cat : catalog) (i : Z) : list film_actor :=
  filter (λ fa, fa_film_id fa = i) (film_actors cat).

Definition category_links (cat : catalog) (i : Z) : list film_category :=
  filter (λ fc, fc_film_id fc = i) (film_categories cat).

(** A full result sequence for a search: each film that matches is in it
    once, in title order, and each of its rows shows a film of the
    catalog. *)
Definition search_contract (cat : catalog) (matches : film → Prop)
    (all : list film_row) : Prop :=
  NoDup (row_film_id <$> all) ∧
  StronglySorted by_title all ∧
  (∀ f, f ∈ films cat → film_id f ∈ row_film_id <$> all ↔ matches f) ∧
  (∀ row, row ∈ all →
     ∃ f, f ∈ films cat ∧ film_id f = row_film_id row ∧ row_title row = title f ∧
          row_year row = release_year f ∧ row_rating row = rating f).

(** The specification's words for [search_by_keyword]: the films whose
    title contains the keyword. *)
Definition title_match (cat : catalog) (k : string) (f : film) : Prop :=
  contains_ci k (title f).

(** What the statement selects: the films whose title contains the
    keyword and that have a category and an actor. *)
Definition linked_title_match (cat : catalog) (k : string) (f : film) : Prop :=
  contains_ci k (title f) ∧
  has_category cat (film_id f) ∧ has_actor cat (film_id f).

(** [search_by_keyword(k, L, O)] returns the window [O, O+L) of a full
    result sequence for [matches]. *)
Definition keyword_search_meets (matches : catalog → string → film → Prop)
    (E : env) (st : state) (k : string) (L O : Z) : Prop :=
  ∃ all, search_contract (the_catalog E) (matches (the_catalog E) k) all ∧
         (search_by_keyword E st k L O).2 = Rows (row_dict <$> limit_offset L O all).

(** The page of a keyword search at page index [i] for page size [L]:
    the tagged rows the call at offset [i * L] gets back when it is made
    in state [st]. *)
Definition keyword_page (E : env) (st : state) (k : string) (L : Z) (i : nat)
  : list film_row :=
  answered_rows E st (SEARCH_BY_KEYWORD ("%" +:+ k +:+ "%") L (Z.of_nat i * L)).

(** The match set of a keyword: one row for each film the statement
    selects, in no particular order. *)
Definition keyword_match_set (cat : catalog) (k : string) : list film_row :=
  grouped cat (λ r, sql_like (title (jf r)) ("%" +:+ k +:+ "%") = true).

(** No two films of the match set have titles that are equal under the
    collation. *)
Definition titles_distinct (cat : catalog) (k : string) : Prop :=
  NoDup ((λ r, upper (row_title r)) <$> keyword_match_set cat k).

#[global] Instance titles_distinct_dec cat k : Decision (titles_distinct cat k).
Proof. unfold titles_distinct. apply _. Defined.

(** The pages of a keyword search partition its match set: whenever page
    [i] is requested in state [sts i], for every [i], and the server
    answers each request, no film is on two pages and every film of the
    match set is on some page. *)
Definition pages_partition (E : env) (k : string) (L : Z) : Prop :=
  ∀ sts : nat → state,
    (∀ i, mysql_status E (mysql_connects (sts i)) = Reachable) →
    (∀ i j id, i ≠ j →
               id ∈ row_film_id <$> keyword_page E (sts i) k L i →
               id ∉ row_film_id <$> keyword_page E (sts j) k L j) ∧
    (∀ row, row ∈ keyword_match_set (the_catalog E) k →
            ∃ i, row ∈ keyword_page E (sts i) k L i).

(** ** Sample catalogs *)

(** Two films with a category and actors, and one film with a category
    but no actor. *)
Definition sample_catalog : catalog :=
  {| films := [Film 1 "Inception" 2010 "PG-13"; Film 2 "The Departed" 2006 "R";
               Film 3 "Alien" 1979 "R"];
     categories := [Category 1 "Sci-Fi"; Category 2 "Crime"];
     actors := [Actor 1 "Leonardo" "DiCaprio"; Actor 2 "Matt" "Damon"];
     film_categories := [FilmCategory 1 1; FilmCategory 2 2; FilmCategory 3 1];
     film_actors := [FilmActor 1 1; FilmActor 1 2; FilmActor 2 2] |}.

(** Two films with the same title. *)
Definition twin_catalog : catalog :=
  {| films := [Film 1 "Alien" 1979 "R"; Film 2 "Alien" 2010 "PG"];
     categories := [Category 1 "Horror"];
     actors := [Actor 1 "Sigourney" "Weaver"];
     film_categories := [FilmCategory 1 1; FilmCategory 2 1];
     film_actors := [FilmActor 1 1; FilmActor 1 2] |}.

(** A catalog with no film at all. *)
Definition empty_catalog : catalog := Catalog [] [] [] [] [].

(** An environment in which both servers answer every call. *)
Definition serving (cat : catalog) : env :=
  {| the_catalog := cat;
     mysql_status := λ _, Reachable;
     row_rank := λ _ i, i;
     mongo_connect_ok := λ _, true;
     mongo_op_ok := λ _, true;
     utcnow := λ n, 1000 * Z.of_nat n |}.

(** An environment in which both servers answer every call and the
    catalog server returns tied rows by ascending film id at one execution
    and by descending film id at the next. *)
Definition alternating (cat : catalog) : env :=
  {| the_catalog := cat;
     mysql_status := λ _, Reachable;
     row_rank := λ n i, if Nat.even n then i else - i;
     mongo_connect_ok := λ _, true;
     mongo_op_ok := λ _, true;
     utcnow := λ n, 1000 * Z.of_nat n |}.

(** An environment in which neither server can be reached. *)
Definition unreachable (cat : catalog) : env :=
  {| the_catalog := cat;
     mysql_status := λ _, ConnectError;
     row_rank := λ _ i, i;
     mongo_connect_ok := λ _, false;
     mongo_op_ok := λ _, false;
     utcnow := λ n, 1000 * Z.of_nat n |}.

(** ** Predicates used to state the properties of the analytics client *)

(** The reader has or obtains its collection, and its operation succeeds. *)
Definition reader_answers (E : env) (st : state) : Prop :=
  (is_Some (_mongo_collection (reader_globals st)) ∨
   mongo_connect_ok E (mongo_clients st) = true) ∧
  mongo_op_ok E (mongo_ops st) = true.

(** Number of logged events whose three grouping fields are [k]. *)
Definition occurrences (docs : list doc) (k : group_id) : Z :=
  Z.of_nat (length (filter (λ d, log_stats.group_key d = k) docs)).


(** The specification's words for [get_recent_queries]: the [L] most
    recent events, newest first. *)
Definition most_recent (docs : list doc) (L : Z) (res : list doc) : Prop :=
  ∃ sorted, sorted ≡ₚ docs ∧
            StronglySorted log_stats.by_timestamp_desc sorted ∧
            res = take (Z.to_nat L) sorted.

(** The events were logged at strictly increasing clock readings. *)
Definition clock_advances (docs : list doc) : Prop :=
  StronglySorted (λ a b, timestamp a < timestamp b) docs.

(** The claim's words for a cached handle: a second request for a
    connection gets the handle the first one got. *)
Definition connection_reused (E : env) (st : state) : Prop :=
  (get_db_connection E (get_db_connection E st).1).2 = (get_db_connection E st).2.

(** The claim's words for the catalog handle of [execute_query]: a second
    query opens no further connection. *)
Definition query_connection_reused (E : env) (st : state) (q : statement) : Prop :=
  mysql_connects (execute_query E (execute_query E st q true).1 q true).1 =
  mysql_connects (execute_query E st q true).1.

(** A state with two logged searches. *)
Definition two_logged : state :=
  let st1 := (log_writer.log_search (serving sample_catalog) initial_state
                "keyword" {[ "keyword" := PyStr "ince"; "page" := PyInt 2 ]} 1).1 in
  (log_writer.log_search (serving sample_catalog) st1
     "genre_year" {[ "genre" := PyStr "Crime"; "year_range" := PyStr "2006" ]} 1).1.

(** ** Predicates used to state the properties of the presenter and of
       the application loop *)

(** The loop body of [format_results] adds a row for this element. *)
Definition renders (movie : entry) : Prop := ∃ row, render_row movie = Ok row.

#[global] Instance renders_dec movie : Decision (renders movie).
Proof.
  unfold renders. destruct (render_row movie) as [row|e].
  - left. by exists row.
  - right. by intros [row ?].
Defined.

(** The event logged for a search carries the length of the page that the
    search call returned; the page is what [execute_query] returned for the
    statement of the step, at most ten records. *)
Definition count_is_page_length (E : env) (s : search_step) : Prop :=
  (∃ st, step_results s = as_list (execute_query E st (step_statement s) true).2) ∧
  Z.of_nat (length (step_results s)) ≤ 10 ∧
  ∀ d, step_event s = Some d →
       results_count d = Z.of_nat (length (step_results s)).

(** A keyword search issues the statement for its keyword with page size
    ten and offset [(step_page - 1) * 10]; whatever page [p] that offset
    stands for, the event logged for the search stores the keyword and
    [p + 1] under ["page"]. *)
Definition keyword_page_plus_one (s : search_step) : Prop :=
  ∀ pattern limit offset,
    step_statement s = SEARCH_BY_KEYWORD pattern limit offset →
    1 ≤ step_page s ∧ limit = 10 ∧ offset = (step_page s - 1) * 10 ∧
    ∃ keyword,
      pattern = ("%" +:+ keyword +:+ "%")%string ∧
      ∀ p d, offset = (p - 1) * 10 → step_event s = Some d →
             search_type d = "keyword"%string ∧
             params d !! "keyword" = Some (PyStr keyword) ∧
             params d !! "page" = Some (PyInt (p + 1)).

(** The page variable of a pagination loop is at least one. *)
Definition page_of (m : mode) : Z :=
  match m with
  | KeywordNav _ page => page
  | GenreNav _ _ _ _ page => page
  | _ => 1
  end.

(** What a run of [main] maintains: the collection grows by the events of
    the searches performed, each search satisfies the two properties
    above, and the page variable is at least one. *)
Definition run_inv (E : env) (st0 : state) (a : application) : Prop :=
  stored (app_state a) = stored st0 ++ omap step_event (app_steps a) ∧
  Forall (count_is_page_length E) (app_steps a) ∧
  Forall keyword_page_plus_one (app_steps a) ∧
  1 ≤ page_of (app_mode a).

(** A session: keyword search for "e", next page, back to the menu, exit. *)
Definition sample_session : application :=
  main (serving sample_catalog) initial_state ["1"; "e"; "2"; "3"; "5"]%string.

(** A session: genre and year search for Sci-Fi films of 1990 to 2000,
    of which the sample catalog has none. *)
Definition empty_search_session : application :=
  main (serving sample_catalog) initial_state
       ["2"; "Sci-Fi"; "2"; "1990"; "2000"]%string.

(** ** Predicates used to state further properties of the catalog client *)

(** The film has a category link to a category named [genre] (under the
    collation of [c.name = %s]). *)
Definition in_genre (cat : catalog) (genre : string) (i : Z) : Prop :=
  ∃ fc c, fc ∈ film_categories cat ∧ fc_film_id fc = i ∧
          c ∈ categories cat ∧ category_id c = fc_category_id fc ∧
          coll_eq (name c) genre.

(** What [SEARCH_BY_GENRE_AND_YEAR] selects. *)
Definition genre_year_match (cat : catalog) (genre : string) (year_from year_to : Z)
    (f : film) : Prop :=
  year_from ≤ release_year f ≤ year_to ∧
  in_genre cat genre (film_id f) ∧ has_actor cat (film_id f).

(** A full result sequence of the genre and year search: each matching film
    once, by year and then title, each row showing a film of the catalog
    under the genre asked for. *)
Definition genre_year_contract (cat : catalog) (genre : string)
    (year_from year_to : Z) (all : list film_row) : Prop :=
  NoDup (row_film_id <$> all) ∧
  StronglySorted by_year_title all ∧
  (∀ f, f ∈ films cat →
        film_id f ∈ row_film_id <$> all ↔ genre_year_match cat genre year_from year_to f) ∧
  (∀ row, row ∈ all →
     ∃ f, f ∈ films cat ∧ film_id f = row_film_id row ∧ row_title row = title f ∧
          row_year row = release_year f ∧ row_rating row = rating f ∧
          coll_eq (row_genre row) genre).

(** The actor is credited on the film: an actor link of the film leads to
    this row of [actor]. *)
Definition credited (cat : catalog) (i : Z) (a : actor) : Prop :=
  a ∈ actors cat ∧
  ∃ fa, fa ∈ film_actors cat ∧ fa_film_id fa = i ∧ actor_id a = fa_actor_id fa.

(** The [WHERE] condition looks at the film and its category only. *)
Definition ignores_actor (P : joined → Prop) : Prop :=
  ∀ r fa a, P r → P (Joined (jf r) (jfc r) (jc r) fa a).

(** The number of records on page [i] for page size [L] when [n] films
    match. *)
Definition page_length (n : nat) (L : Z) (i : nat) : Z :=
  Z.max 0 (Z.min L (Z.of_nat n - Z.of_nat i * L)).

(** [ORDER BY a.last_name] inside [GROUP_CONCAT]. *)
Definition by_last_name (a b : actor) : Prop := coll_le (last_name a) (last_name b).

#[global] Instance by_last_name_dec a b : Decision (by_last_name a b).
Proof. unfold by_last_name. apply _. Defined.

(** ** Predicates used to state further properties of the analytics client *)

(** The writer has or obtains its collection, and its insert succeeds. *)
Definition writer_succeeds (E : env) (st : state) : Prop :=
  (is_Some (_mongo_collection (writer_globals st)) ∨
   mongo_connect_ok E (mongo_clients st) = true) ∧
  mongo_op_ok E (mongo_ops st) = true.

#[global] Instance writer_succeeds_dec E st : Decision (writer_succeeds E st).
Proof. unfold writer_succeeds. apply _. Defined.

(** A sequence of [log_search] calls, each given as (search type, params,
    results count). *)
Definition log_all (E : env) (st : state) (calls : list (string * pydict * Z)) : state :=
  foldl (λ st c, (log_writer.log_search E st c.1.1 c.1.2 c.2).1) st calls.

(** The grouping key of an event with these [params]. *)
Definition params_key (ps : pydict) : group_id :=
  {| id_keyword := ps !! "keyword";
     id_genre := ps !! "genre";
     id_year_range := ps !! "year_range" |}.

(** An environment in which the catalog answers and the analytics server
    cannot be reached. *)
Definition analytics_down (cat : catalog) : env :=
  {| the_catalog := cat;
     mysql_status := λ _, Reachable;
     row_rank := λ _ i, i;
     mongo_connect_ok := λ _, false;
     mongo_op_ok := λ _, false;
     utcnow := λ n, 1000 * Z.of_nat n |}.

(** ** Predicates used to state further properties of the presenter *)

(** The [actors] value of a row is one [truncate_text] accepts: anything
    but an integer other than zero. *)
Definition actors_ok (v : pyval) : Prop :=
  match v with
  | PyInt z => z = 0
  | _ => True
  end.

#[global] Instance actors_ok_dec v : Decision (actors_ok v).
Proof. destruct v; simpl; apply _. Defined.

(** ** Predicates used to state further properties of the application loop *)

(** [LIMIT] and [OFFSET] of a search statement. *)
Definition statement_window (q : statement) : option (Z * Z) :=
  match q with
  | SEARCH_BY_KEYWORD _ limit offset => Some (limit, offset)
  | SEARCH_BY_GENRE_AND_YEAR _ _ _ limit offset => Some (limit, offset)
  | _ => None
  end.

(** A search of the loop asks for ten records from offset
    [(page - 1) * 10], for a page number that is at least one. *)
Definition step_paged (s : search_step) : Prop :=
  1 ≤ step_page s ∧
  statement_window (step_statement s) = Some (10, (step_page s - 1) * 10).

(** A genre and year search of the loop is for a genre of the [category]
    table and a year range that is not inverted, and the event logged for it
    stores the genre and either the single year or ["from-to"]. *)
Definition genre_step_ok (E : env) (s : search_step) : Prop :=
  ∀ genre year_from year_to limit offset,
    step_statement s = SEARCH_BY_GENRE_AND_YEAR genre year_from year_to limit offset →
    year_from ≤ year_to ∧
    genre ∈ name <$> categories (the_catalog E) ∧
    ∀ d, step_event s = Some d →
         search_type d = "genre_year"%string ∧
         params d !! "genre" = Some (PyStr genre) ∧
         params d !! "keyword" = None ∧
         ((params d !! "year_range" = Some (PyStr (pretty year_from)) ∧
           year_from = year_to) ∨
          params d !! "year_range" =
            Some (PyStr (pretty year_from +:+ "-" +:+ pretty year_to))).

(** What the loop knows at each prompt. *)
Definition mode_ok (E : env) (m : mode) : Prop :=
  let known g := g ∈ name <$> categories (the_catalog E) in
  match m with
  | KeywordNav _ page => 1 ≤ page
  | AskGenre genres _ _ => ∀ g, PyStr g ∈ genres → known g
  | AskYearChoice genre _ _ | AskYear genre _ _ | AskYearFrom genre _ _
  | AskYearTo genre _ _ _ => known genre
  | GenreNav genre year_from year_to year_choice page =>
    known genre ∧ year_from ≤ year_to ∧ 1 ≤ page ∧
    (year_choice = "1"%string → year_from = year_to)
  | _ => True
  end.

Definition loop_inv (E : env) (a : application) : Prop :=
  mode_ok E (app_mode a) ∧
  Forall step_paged (app_steps a) ∧
  Forall (genre_step_ok E) (app_steps a).

(** A catalog with categories and no film. *)
Definition filmless_catalog : catalog :=
  {| films := []; categories := [Category 1 "Horror"; Category 2 "Drama"];
     actors := []; film_categories := []; film_actors := [] |}.

(** ** Module [formatter]: the query text of the statistics tables *)

Section format_dict.

(** [str(d)] of a dictionary, the text Python prints for it. *)
Variable dict_str : pydict → string.

(** [if key in d and d[key]: parts.append(f"{key}: {d[key]}")] *)
Definition append_part (d : pydict) (key : string) (parts : list string) : list string :=
  match d !! key with
  | Some v => if truthy v then parts ++ [key +:+ ": " +:+ py_str v] else parts
  | None => parts
  end.

(** [format_dict] on a dictionary. *)
Definition format_dict (d : pydict) : string :=
  let parts := [] in
  let parts := append_part d "keyword" parts in
  let parts := append_part d "genre" parts in
  let parts := append_part d "year_range" parts in
  match parts with
  | [] => dict_str d
  | _ => join_with ", " parts
  end.

(** The dictionary the ["popular"] mode of [format_statistics_results]
    builds from the [_id] of a group: [.get] gives [None] for a field that
    is absent. *)
Definition popular_query (q : popular) : pydict :=
  {[ "keyword" := default PyNone (id_keyword (_id q));
     "genre" := default PyNone (id_genre (_id q));
     "year_range" := default PyNone (id_year_range (_id q)) ]}.

(** The first cell of a row in either mode. *)
Definition popular_cell (q : popular) : string := format_dict (popular_query q).
Definition recent_cell (d : doc) : string := format_dict (params d).

End format_dict.

(** One of the three fields of the parameters has a true value. *)
Definition names_query (ps : pydict) : Prop :=
  Exists (λ key, from_option truthy false (ps !! key) = true)
         ["keyword"; "genre"; "year_range"]%string.

#[global] Instance names_query_dec ps : Decision (names_query ps).
Proof. unfold names_query. apply _. Defined.

(** * Properties of the catalog client *)

(** ** The collation order *)

Lemma coll_compare_refl s : coll_compare s s = Eq.
Proof.
  unfold coll_compare.
  destruct (String_as_OT.compare_spec (upper s) (upper s)) as [_|H|H]; [done|..];
    by apply (irreflexivity String_as_OT.lt) in H.
Qed.

Lemma coll_compare_Gt_Lt s1 s2 : coll_compare s1 s2 = Gt → coll_compare s2 s1 = Lt.
Proof.
  unfold coll_compare. intros H.
  destruct (String_as_OT.compare_spec (upper s1) (upper s2)) as [?|?|Hlt]; done.
Qed.

#[global] Instance coll_le_total : Total coll_le.
Proof.
  intros s1 s2. unfold coll_le.
  destruct (coll_compare s1 s2) eqn:H; [by left|by left|].
  right. by rewrite (coll_compare_Gt_Lt _ _ H).
Qed.

#[global] Instance coll_le_trans : Transitive coll_le.
Proof.
  intros s1 s2 s3. unfold coll_le, coll_compare. intros H12 H23 H13.
  destruct (String_as_OT.compare_spec (upper s1) (upper s3)) as [?|?|H31]; try done.
  destruct (String_as_OT.compare_spec (upper s1) (upper s2)) as [E12|L12|?]; try done;
  destruct (String_as_OT.compare_spec (upper s2) (upper s3)) as [E23|L23|?]; try done.
  - rewrite E12, E23 in H31. by apply (irreflexivity String_as_OT.lt) in H31.
  - rewrite E12 in H31.
    by apply (irreflexivity String_as_OT.lt (upper s3)); etrans.
  - rewrite <- E23 in H31.
    by apply (irreflexivity String_as_OT.lt (upper s2)); etrans.
  - apply (irreflexivity String_as_OT.lt (upper s3)).
    etrans; [exact H31|]. by etrans.
Qed.

#[global] Instance by_title_total : Total by_title.
Proof. intros r1 r2. apply (total coll_le). Qed.

#[global] Instance by_title_trans : Transitive by_title.
Proof. intros r1 r2 r3. apply (transitivity (R := coll_le)). Qed.

#[global] Instance by_year_title_total : Total by_year_title.
Proof.
  intros r1 r2. unfold by_year_title.
  destruct (Z.lt_trichotomy (row_year r1) (row_year r2)) as [?|[Heq|?]]; [tauto| |tauto].
  destruct (total coll_le (row_title r1) (row_title r2)); [left|right]; right; split;
    done.
Qed.

#[global] Instance by_year_title_trans : Transitive by_year_title.
Proof.
  intros r1 r2 r3. unfold by_year_title.
  intros [?|[? H12]] [?|[? H23]]; try (left; lia).
  right. split; [lia|]. by etrans.
Qed.

#[global] Instance ties_by_total rank R `{!Total R} `{!∀ r1 r2, Decision (R r1 r2)} :
  Total (ties_by rank R).
Proof.
  intros r1 r2. unfold ties_by.
  destruct (decide (R r1 r2)) as [H12|N12], (decide (R r2 r1)) as [H21|N21].
  - destruct (Z.le_ge_cases (rank (row_film_id r1)) (rank (row_film_id r2)));
      [left|right]; done.
  - by left.
  - by right.
  - by destruct (total R r1 r2).
Qed.

#[global] Instance ties_by_trans rank R `{!Transitive R} : Transitive (ties_by rank R).
Proof.
  intros r1 r2 r3 [H12 T12] [H23 T23]. split; [by etrans|].
  intros H31. etrans; [apply T12|apply T23]; by etrans.
Qed.

Lemma StronglySorted_ties_by rank R (l : list film_row) :
  StronglySorted (ties_by rank R) l → StronglySorted R l.
Proof.
  induction 1 as [|r l _ IH Hall]; constructor; [done|].
  eapply Forall_impl; [exact Hall|]. by intros r' [? _].
Qed.

(** ** [LIKE] against a keyword without wildcards *)


Lemma list_ascii_app s1 s2 :
  list_ascii_of_string (s1 +:+ s2) = list_ascii_of_string s1 ++ list_ascii_of_string s2.
Proof. induction s1 as [|c s1 IH]; simpl; [done|]. by rewrite IH. Qed.

Lemma list_ascii_upper s :
  list_ascii_of_string (upper s) = upper_ascii <$> list_ascii_of_string s.
Proof. induction s as [|c s IH]; simpl; [done|]. by rewrite IH. Qed.

Lemma coll_eq_list s1 s2 :
  coll_eq s1 s2 ↔
  upper_ascii <$> list_ascii_of_string s1 = upper_ascii <$> list_ascii_of_string s2.
Proof.
  unfold coll_eq. rewrite <- !list_ascii_upper. split; [by intros ->|].
  intros H. rewrite <- (string_of_list_ascii_of_string (upper s1)), H.
  apply string_of_list_ascii_of_string.
Qed.

Lemma like_cons_plain c p s :
  like_special c = false →
  like (c :: p) s =
  match s with [] => false | x :: s' => coll_eqb c x && like p s' end.
Proof.
  unfold like_special. intros H.
  apply orb_false_elim in H as [H H3]. apply orb_false_elim in H as [H1 H2].
  simpl. by rewrite H1, H2, H3.
Qed.

Lemma like_percent_unfold p s :
  like ("%"%char :: p) s =
  like p s || match s with [] => false | _ :: s' => like ("%"%char :: p) s' end.
Proof. by destruct s. Qed.

Lemma like_percent p s :
  like ("%"%char :: p) s = true ↔ ∃ pre rest, s = pre ++ rest ∧ like p rest = true.
Proof.
  induction s as [|x s IH]; rewrite like_percent_unfold, orb_true_iff.
  - split.
    + intros [H|?]; [|done]. by exists [], [].
    + intros (pre & rest & Hs & H). left.
      symmetry in Hs. apply app_eq_nil in Hs as [-> ->]. done.
  - rewrite IH. split.
    + intros [H|(pre & rest & -> & H)]; [by exists [], (x :: s)|].
      by exists (x :: pre), rest.
    + intros (pre & rest & Hs & H). destruct pre as [|y pre]; simpl in Hs.
      * left. by subst.
      * right. injection Hs as -> ->. by exists pre, rest.
Qed.

Lemma like_plain_prefix k p s :
  Forall (λ c, like_special c = false) k →
  like (k ++ p) s = true ↔
  ∃ mid rest, s = mid ++ rest ∧ upper_ascii <$> mid = upper_ascii <$> k ∧
              like p rest = true.
Proof.
  intros Hk. revert s. induction Hk as [|c k Hc Hk IH]; intros s.
  - simpl. split.
    + intros H. by exists [], s.
    + intros (mid & rest & -> & Hm & H).
      apply fmap_nil_inv in Hm as ->. done.
  - simpl app. rewrite like_cons_plain by done. destruct s as [|x s].
    + split; [done|]. intros (mid & rest & Hs & Hm & _).
      symmetry in Hs. apply app_eq_nil in Hs as [-> _]. done.
    + rewrite andb_true_iff, IH. unfold coll_eqb. rewrite Ascii.eqb_eq. split.
      * intros [Hcx (mid & rest & -> & Hm & H)].
        exists (x :: mid), rest. split; [done|]. split; [|done].
        rewrite !fmap_cons. by rewrite Hm, Hcx.
      * intros (mid & rest & Hs & Hm & H). destruct mid as [|y mid]; [done|].
        rewrite !fmap_cons in Hm. simpl in Hs. injection Hs as -> ->.
        injection Hm as Hy Hm.
        split; [done|]. by exists mid, rest.
Qed.

(** For a keyword without wildcards, [title LIKE '%keyword%'] is
    case-insensitive containment. *)
Lemma sql_like_contains k t :
  plain_keyword k →
  sql_like t ("%" +:+ k +:+ "%") = true ↔ contains_ci k t.
Proof.
  intros Hk. unfold sql_like, contains_ci.
  rewrite !list_ascii_app. change (list_ascii_of_string "%") with ["%"%char].
  simpl app. rewrite like_percent. split.
  - intros (pre & rest & Ht & H).
    apply like_plain_prefix in H as (mid & post & -> & Hm & _); [|done].
    exists (string_of_list_ascii pre), (string_of_list_ascii mid),
           (string_of_list_ascii post).
    split.
    + rewrite <- (string_of_list_ascii_of_string t), Ht.
      rewrite <- (list_ascii_of_string_of_list_ascii pre) at 1.
      rewrite <- (list_ascii_of_string_of_list_ascii mid) at 1.
      rewrite <- (list_ascii_of_string_of_list_ascii post) at 1.
      rewrite <- !list_ascii_app. apply string_of_list_ascii_of_string.
    + apply coll_eq_list. by rewrite list_ascii_of_string_of_list_ascii.
  - intros (pre & mid & post & -> & Hm).
    exists (list_ascii_of_string pre),
           (list_ascii_of_string mid ++ list_ascii_of_string post).
    split; [by rewrite !list_ascii_app|].
    apply like_plain_prefix; [done|].
    exists (list_ascii_of_string mid), (list_ascii_of_string post).
    split; [done|]. split; [by apply coll_eq_list|].
    apply like_percent. exists (list_ascii_of_string post), [].
    by rewrite app_nil_r.
Qed.

(** ** Joins and grouping *)


Lemma elem_of_from_joins cat r :
  r ∈ from_joins cat ↔
  jf r ∈ films cat ∧
  (jfc r ∈ film_categories cat ∧ fc_film_id (jfc r) = film_id (jf r)) ∧
  (jc r ∈ categories cat ∧ category_id (jc r) = fc_category_id (jfc r)) ∧
  (jfa r ∈ film_actors cat ∧ fa_film_id (jfa r) = film_id (jf r)) ∧
  (ja r ∈ actors cat ∧ actor_id (ja r) = fa_actor_id (jfa r)).
Proof.
  unfold from_joins. rewrite list_elem_of_bind. split.
  - intros (f & H & Hf).
    apply list_elem_of_bind in H as (fc & H & Hfc).
    apply list_elem_of_bind in H as (c & H & Hc).
    apply list_elem_of_bind in H as (fa & H & Hfa).
    apply list_elem_of_bind in H as (a & H & Ha).
    apply list_elem_of_ret in H as ->. simpl.
    apply list_elem_of_filter in Hfc, Hc, Hfa, Ha. tauto.
  - destruct r as [f fc c fa a]. simpl. intros (Hf & Hfc & Hc & Hfa & Ha).
    exists f. split; [|done].
    apply list_elem_of_bind. exists fc. split; [|apply list_elem_of_filter; simpl; tauto].
    apply list_elem_of_bind. exists c. split; [|apply list_elem_of_filter; simpl; tauto].
    apply list_elem_of_bind. exists fa. split; [|apply list_elem_of_filter; simpl; tauto].
    apply list_elem_of_bind. exists a. split; [|apply list_elem_of_filter; simpl; tauto].
    by apply list_elem_of_ret.
Qed.

Lemma from_joins_linked cat r :
  r ∈ from_joins cat →
  has_category cat (film_id (jf r)) ∧ has_actor cat (film_id (jf r)).
Proof.
  rewrite elem_of_from_joins. intros (_ & [? ?] & [? ?] & [? ?] & [? ?]).
  split; [by exists (jfc r), (jc r)|by exists (jfa r), (ja r)].
Qed.

Lemma linked_from_joins cat f :
  f ∈ films cat → has_category cat (film_id f) → has_actor cat (film_id f) →
  ∃ r, r ∈ from_joins cat ∧ jf r = f.
Proof.
  intros Hf (fc & c & ? & ? & ? & ?) (fa & a & ? & ? & ? & ?).
  exists (Joined f fc c fa a). split; [|done].
  apply elem_of_from_joins. simpl. tauto.
Qed.

Lemma first_per_film_elem_of rows r : r ∈ first_per_film rows → r ∈ rows.
Proof.
  induction rows as [|r0 rows IH]; simpl; [done|].
  rewrite !elem_of_cons, list_elem_of_filter. intros [?|[_ ?]]; auto.
Qed.

Lemma first_per_film_covers rows r :
  r ∈ rows → ∃ r', r' ∈ first_per_film rows ∧ film_id (jf r') = film_id (jf r).
Proof.
  induction rows as [|r0 rows IH]; simpl; [by rewrite elem_of_nil|].
  rewrite elem_of_cons. intros [->|Hr].
  - exists r0. split; [apply elem_of_cons; by left|done].
  - destruct (IH Hr) as (r' & Hr' & Hid).
    destruct (decide (film_id (jf r') = film_id (jf r0))) as [Heq|Hne].
    + exists r0. split; [apply elem_of_cons; by left|congruence].
    + exists r'. split; [|done]. apply elem_of_cons. right.
      by apply list_elem_of_filter.
Qed.

Lemma first_per_film_NoDup rows :
  NoDup ((λ r, film_id (jf r)) <$> first_per_film rows).
Proof.
  induction rows as [|r0 rows IH]; simpl; [constructor|].
  constructor.
  - rewrite list_elem_of_fmap. intros (r & Hid & Hr).
    apply list_elem_of_filter in Hr as [Hne _]. congruence.
  - eapply sublist_NoDup; [exact IH|]. apply fmap_sublist, sublist_filter.
Qed.


Section grouped.
Context (cat : catalog) (P : joined → Prop) `{!∀ r, Decision (P r)}.

Lemma grouped_ids :
  row_film_id <$> grouped cat P =
  (λ r, film_id (jf r)) <$> first_per_film (filter P (from_joins cat)).
Proof.
  unfold grouped, group_by_film_id. rewrite <- !list_fmap_compose.
  by apply list_fmap_ext.
Qed.

Lemma grouped_NoDup : NoDup (row_film_id <$> grouped cat P).
Proof. rewrite grouped_ids. apply first_per_film_NoDup. Qed.

(** Every row of the result comes from a row of the join that satisfies
    the condition, and shows that film's columns. *)
Lemma grouped_sound row :
  row ∈ grouped cat P →
  ∃ r, r ∈ from_joins cat ∧ P r ∧
       row_film_id row = film_id (jf r) ∧ row_title row = title (jf r) ∧
       row_year row = release_year (jf r) ∧ row_rating row = rating (jf r) ∧
       row_genre row = name (jc r).
Proof.
  unfold grouped, group_by_film_id. rewrite <- list_fmap_compose.
  rewrite list_elem_of_fmap. intros (r & -> & Hr).
  apply first_per_film_elem_of, list_elem_of_filter in Hr as [HP Hr].
  by exists r.
Qed.

(** Every film with a row of the join that satisfies the condition has a
    row in the result. *)
Lemma grouped_complete r :
  r ∈ from_joins cat → P r → film_id (jf r) ∈ row_film_id <$> grouped cat P.
Proof.
  intros Hr HP. rewrite grouped_ids.
  destruct (first_per_film_covers (filter P (from_joins cat)) r)
    as (r' & Hr' & Hid); [by apply list_elem_of_filter|].
  rewrite <- Hid. apply list_elem_of_fmap. by exists r'.
Qed.
End grouped.

Lemma keyword_matches_perm rank cat pattern :
  keyword_matches rank cat pattern ≡ₚ
  grouped cat (λ r, sql_like (title (jf r)) pattern = true).
Proof. apply merge_sort_Permutation. Qed.

Lemma genre_year_matches_perm rank cat genre year_from year_to :
  genre_year_matches rank cat genre year_from year_to ≡ₚ
  grouped cat (λ r, coll_eq (name (jc r)) genre ∧
                    year_from ≤ release_year (jf r) ≤ year_to).
Proof. apply merge_sort_Permutation. Qed.

Lemma keyword_matches_sorted rank cat pattern :
  StronglySorted by_title (keyword_matches rank cat pattern).
Proof.
  apply (StronglySorted_ties_by rank). apply StronglySorted_merge_sort; apply _.
Qed.

Lemma keyword_matches_NoDup rank cat pattern :
  NoDup (row_film_id <$> keyword_matches rank cat pattern).
Proof.
  rewrite (fmap_Permutation _ _ _ (keyword_matches_perm rank cat pattern)).
  apply grouped_NoDup.
Qed.

Lemma genre_year_matches_NoDup rank cat genre year_from year_to :
  NoDup (row_film_id <$> genre_year_matches rank cat genre year_from year_to).
Proof.
  rewrite (fmap_Permutation _ _ _
             (genre_year_matches_perm rank cat genre year_from year_to)).
  apply grouped_NoDup.
Qed.

Lemma coll_le_antisym s1 s2 : coll_le s1 s2 → coll_le s2 s1 → coll_eq s1 s2.
Proof.
  unfold coll_le, coll_eq. intros H12 H21.
  destruct (coll_compare s1 s2) eqn:Hc; [|exfalso|done].
  - unfold coll_compare in Hc.
    by destruct (String_as_OT.compare_spec (upper s1) (upper s2)).
  - unfold coll_compare in *.
    destruct (String_as_OT.compare_spec (upper s1) (upper s2)) as [?|Hlt|?];
      try done.
    destruct (String_as_OT.compare_spec (upper s2) (upper s1)) as [?|Hlt'|?];
      try done.
    + subst. rewrite H in Hlt. by apply (irreflexivity String_as_OT.lt) in Hlt.
    + apply (irreflexivity String_as_OT.lt (upper s1)). by etrans.
Qed.

(** ** [LIMIT] and [OFFSET] *)

Lemma limit_offset_sublist {A} l o (rows : list A) :
  limit_offset l o rows `sublist_of` rows.
Proof.
  unfold limit_offset. etrans; [apply sublist_take|apply sublist_drop].
Qed.

Lemma limit_offset_elem_of {A} l o (rows : list A) x :
  x ∈ limit_offset l o rows → x ∈ rows.
Proof.
  unfold limit_offset. intros H.
  apply elem_of_take in H as (i & H & _). rewrite lookup_drop in H.
  by eapply list_elem_of_lookup_2.
Qed.

Lemma limit_offset_length {A} l o (rows : list A) :
  0 ≤ l → Z.of_nat (length (limit_offset l o rows)) ≤ l.
Proof.
  intros Hl. unfold limit_offset. rewrite length_take. lia.
Qed.

(** ** [execute_query] *)

Lemma execute_query_search E st q :
  is_search q →
  (execute_query E st q true).2 = Rows (row_dict <$> answered_rows E st q).
Proof.
  intros Hq. unfold execute_query, get_db_connection, answered_rows.
  destruct (mysql_status E (mysql_connects st)) eqn:Hs; simpl; [|done|by rewrite Hs].
  rewrite Hs. destruct q; try done; simpl; by case_decide.
Qed.

Lemma execute_query_closes E st q fetch_all :
  mysql_connects st ∉ mysql_open st →
  mysql_open (execute_query E st q fetch_all).1 = mysql_open st.
Proof.
  intros Hfresh. unfold execute_query, get_db_connection.
  assert (filter (λ c, c ≠ mysql_connects st) (mysql_open st) = mysql_open st) as Hf.
  { induction (mysql_open st) as [|c l IH]; [done|].
    apply not_elem_of_cons in Hfresh as [? ?].
    rewrite filter_cons_True by done. f_equal. by apply IH. }
  destruct (mysql_status E (mysql_connects st)); simpl; [|done|];
    rewrite filter_cons_False by (by intros ?); exact Hf.
Qed.

Lemma answered_rows_keyword E st pattern L O :
  mysql_status E (mysql_connects st) = Reachable → 0 ≤ L → 0 ≤ O →
  answered_rows E st (SEARCH_BY_KEYWORD pattern L O) =
  limit_offset L O
    (keyword_matches (row_rank E (mysql_connects st)) (the_catalog E) pattern).
Proof.
  intros Hs HL HO. unfold answered_rows. rewrite Hs. simpl.
  by rewrite decide_True.
Qed.

Lemma answered_rows_sound E st q row :
  is_search q → row ∈ answered_rows E st q →
  ∃ r, r ∈ from_joins (the_catalog E) ∧ row_film_id row = film_id (jf r) ∧
       row_title row = title (jf r) ∧ row_year row = release_year (jf r) ∧
       row_rating row = rating (jf r).
Proof.
  intros Hq. unfold answered_rows.
  destruct (mysql_status E (mysql_connects st)); try by rewrite elem_of_nil.
  destruct q; try done; simpl; case_decide; simpl; try by rewrite elem_of_nil.
  - intros Hin%limit_offset_elem_of.
    rewrite (keyword_matches_perm _ _ _) in Hin.
    apply grouped_sound in Hin as (r & ? & ? & ? & ? & ? & ? & ?). by exists r.
  - intros Hin%limit_offset_elem_of.
    rewrite (genre_year_matches_perm _ _ _ _ _) in Hin.
    apply grouped_sound in Hin as (r & ? & ? & ? & ? & ? & ? & ?). by exists r.
Qed.

Lemma NoDup_fmap_eq {A B} (f : A → B) (l : list A) x y :
  NoDup (f <$> l) → x ∈ l → y ∈ l → f x = f y → x = y.
Proof.
  intros Hnd (i & Hi)%list_elem_of_lookup (j & Hj)%list_elem_of_lookup Hxy.
  assert (i = j) as ->; [|congruence].
  eapply (NoDup_lookup _ _ _ (f x) Hnd); rewrite list_lookup_fmap.
  - by rewrite Hi.
  - by rewrite Hj, Hxy.
Qed.

(** ** [search_by_keyword] *)

Lemma search_by_keyword_rows E st k L O :
  (search_by_keyword E st k L O).2 =
  Rows (row_dict <$> answered_rows E st (SEARCH_BY_KEYWORD ("%" +:+ k +:+ "%") L O)).
Proof. by apply execute_query_search. Qed.

Lemma search_by_genre_and_year_rows E st genre year_from year_to L O :
  (search_by_genre_and_year E st genre year_from year_to L O).2 =
  Rows (row_dict <$>
        answered_rows E st (SEARCH_BY_GENRE_AND_YEAR genre year_from year_to L O)).
Proof. by apply execute_query_search. Qed.

Lemma keyword_matches_contract rank cat k :
  film_id_is_key cat → plain_keyword k →
  search_contract cat (linked_title_match cat k)
                  (keyword_matches rank cat ("%" +:+ k +:+ "%")).
Proof.
  intros Hkey Hk. unfold search_contract.
  split; [apply keyword_matches_NoDup|].
  split; [apply keyword_matches_sorted|].
  split.
  - intros f Hf. rewrite (fmap_Permutation _ _ _ (keyword_matches_perm rank cat _)). split.
    + rewrite list_elem_of_fmap. intros (row & Hid & Hrow).
      apply grouped_sound in Hrow as (r & Hr & Hlike & Hid' & _).
      assert (jf r = f) as <-.
      { apply (NoDup_fmap_eq film_id (films cat)); [done| |done|congruence].
        by apply elem_of_from_joins in Hr as [? _]. }
      split; [by apply sql_like_contains|by apply from_joins_linked].
    + intros (Hc & Hcat & Hact).
      destruct (linked_from_joins cat f Hf Hcat Hact) as (r & Hr & <-).
      apply (grouped_complete cat (λ r, sql_like (title (jf r)) _ = true)); [done|].
      by apply sql_like_contains.
  - intros row Hrow. rewrite (keyword_matches_perm rank cat _) in Hrow.
    apply grouped_sound in Hrow as (r & Hr & _ & ? & ? & ? & ? & _).
    exists (jf r). by apply elem_of_from_joins in Hr as [? _].
Qed.

(** C1 (amended): on a catalog in which film ids are unique, for a keyword
    without the LIKE characters [%], [_] and backslash and for [L], [O]
    not negative, [search_by_keyword(k, L, O)] returns, when the server
    answers, the window [O, O+L) of the sequence that holds once each film
    whose title contains [k] case-insensitively and that has a category
    and an actor, in title order; when the server does not answer it
    returns the empty list. *)
Theorem search_by_keyword_linked_contract E st k L O :
  film_id_is_key (the_catalog E) → plain_keyword k → 0 ≤ L → 0 ≤ O →
  (mysql_status E (mysql_connects st) = Reachable →
   keyword_search_meets linked_title_match E st k L O) ∧
  (mysql_status E (mysql_connects st) ≠ Reachable →
   (search_by_keyword E st k L O).2 = Rows []).
Proof.
  intros Hkey Hk HL HO. split; intros Hs.
  - exists (keyword_matches (row_rank E (mysql_connects st)) (the_catalog E) ("%" +:+ k +:+ "%")).
    split; [by apply keyword_matches_contract|].
    by rewrite search_by_keyword_rows, answered_rows_keyword.
  - rewrite search_by_keyword_rows. unfold answered_rows.
    by destruct (mysql_status E (mysql_connects st)).
Qed.

Lemma search_by_keyword_linked_contract_witness :
  keyword_search_meets linked_title_match (serving sample_catalog) initial_state
                       "ince" 10 0.
Proof.
  apply (search_by_keyword_linked_contract (serving sample_catalog) initial_state
                                           "ince" 10 0).
  - compute_done.
  - compute_done.
  - lia.
  - lia.
  - reflexivity.
Defined.

(** Every character of the keyword occurs, up to case, in a title that
    contains the keyword. *)
Lemma contains_ci_char k t c :
  contains_ci k t →
  c ∈ upper_ascii <$> list_ascii_of_string k →
  c ∈ upper_ascii <$> list_ascii_of_string t.
Proof.
  intros (pre & mid & post & -> & Hm%coll_eq_list) Hc.
  rewrite !list_ascii_app, !fmap_app, Hm, !elem_of_app. tauto.
Qed.

(** C1 as stated fails: a film whose title contains the keyword but that has
    no actor is not returned, and the keyword [_] returns a film whose
    title has no underscore. *)
Lemma search_by_keyword_title_contract_fails :
  ¬ keyword_search_meets title_match (serving sample_catalog) initial_state
                         "alien" 10 0 ∧
  ¬ keyword_search_meets title_match (serving sample_catalog) initial_state
                         "_" 10 0.
Proof.
  split.
  - intros (all & (_ & _ & Hiff & _) & Hres).
    assert ((search_by_keyword (serving sample_catalog) initial_state "alien" 10 0).2
            = Rows []) as Hnone by (vm_compute; reflexivity).
    rewrite Hnone in Hres. injection Hres as Hres. symmetry in Hres.
    apply fmap_nil_inv in Hres.
    assert (3 ∈ row_film_id <$> all) as Hin.
    { apply (Hiff (Film 3 "Alien" 1979 "R")); [right; right; by left|].
      by exists ""%string, "Alien"%string, ""%string. }
    unfold limit_offset in Hres. change (Z.to_nat 0) with 0%nat in Hres.
    rewrite drop_0 in Hres.
    destruct all as [|row all]; [by apply elem_of_nil in Hin|done].
  - intros (all & (_ & _ & Hiff & Hrows) & Hres).
    assert (∃ ds, (search_by_keyword (serving sample_catalog) initial_state "_" 10 0).2
                  = Rows (ds.1 :: ds.2)) as [ds Hsome]
      by (eexists (_, _); vm_compute; reflexivity).
    rewrite Hsome in Hres. injection Hres as Hres.
    destruct all as [|row all]; [done|].
    destruct (Hrows row) as (f & Hf & Hid & _); [by left|].
    assert (film_id f ∈ row_film_id <$> row :: all) as Hin
      by (rewrite Hid; by left).
    apply (Hiff f Hf) in Hin. unfold title_match in Hin.
    apply (contains_ci_char _ _ "_"%char) in Hin; [|by left].
    simpl in Hf. rewrite !elem_of_cons, elem_of_nil in Hf.
    destruct Hf as [->|[->|[->|[]]]]; vm_compute in Hin;
      repeat (apply elem_of_cons in Hin as [Hin|Hin]; [done|]);
      by apply elem_of_nil in Hin.
Qed.

(** ** Pagination *)

Lemma pages_concat {A} (all : list A) (L n : nat) :
  concat ((λ i, take L (drop (i * L) all)) <$> seq 0 n) = take (n * L) all.
Proof.
  induction n as [|n IH]; [done|].
  rewrite seq_S, fmap_app, concat_app, IH. simpl. rewrite app_nil_r.
  rewrite take_take_drop. f_equal. lia.
Qed.

Lemma pages_disjoint {A} `{!EqDecision A} (all : list A) (L i j : nat) x :
  NoDup all → i ≠ j →
  x ∈ take L (drop (i * L) all) → x ∉ take L (drop (j * L) all).
Proof.
  intros Hnd Hij (a & Ha & HaL)%elem_of_take (b & Hb & HbL)%elem_of_take.
  rewrite lookup_drop in Ha, Hb.
  pose proof (NoDup_lookup _ _ _ _ Hnd Ha Hb) as Heq.
  apply Hij. nia.
Qed.

(** When no two matching films have titles equal under the collation, the
    title order leaves one arrangement only: the result does not depend on
    how the server orders rows with equal titles. *)
Lemma keyword_order_unique rank rank' cat k :
  titles_distinct cat k →
  keyword_matches rank cat ("%" +:+ k +:+ "%") =
  keyword_matches rank' cat ("%" +:+ k +:+ "%").
Proof.
  intros Hdistinct.
  apply (StronglySorted_unique_strong by_title).
  - intros r1 r2 Hr1 Hr2 H12 H21.
    rewrite keyword_matches_perm in Hr1, Hr2.
    apply (NoDup_fmap_eq (λ r, upper (row_title r)) (keyword_match_set cat k));
      [done..|].
    by apply coll_le_antisym.
  - apply keyword_matches_sorted.
  - apply keyword_matches_sorted.
  - by rewrite !keyword_matches_perm.
Qed.

Lemma keyword_page_window E st k L i :
  mysql_status E (mysql_connects st) = Reachable → 0 ≤ L →
  keyword_page E st k L i =
  take (Z.to_nat L)
       (drop (i * Z.to_nat L)
             (keyword_matches (row_rank E (mysql_connects st)) (the_catalog E)
                              ("%" +:+ k +:+ "%"))).
Proof.
  intros Hs HL. unfold keyword_page.
  rewrite answered_rows_keyword; [|done|done|nia].
  unfold limit_offset. do 2 f_equal. nia.
Qed.

Lemma window_covers {A} (all : list A) (L : nat) x :
  (0 < L)%nat → x ∈ all → ∃ i, x ∈ take L (drop (i * L) all).
Proof.
  intros HL (idx & Hidx)%list_elem_of_lookup.
  exists (idx / L)%nat. apply elem_of_take. exists (idx mod L)%nat. split.
  - rewrite lookup_drop, <- Hidx. f_equal.
    pose proof (Nat.div_mod idx L). lia.
  - apply Nat.mod_upper_bound. lia.
Qed.

(** C2 (amended): for every page size [L ≥ 0], every call of
    [search_by_keyword] returns at most [L] records; and when no two films
    of the match set have titles that are equal under the collation, there
    is one duplicate-free, title-ordered arrangement of the match set of
    which every answered call at offset [i * L] returns the window
    [i * L, i * L + L), in whatever state the call is made; the first [n]
    pages put end to end are its first [n * L] rows, with no gap; and for
    [L ≥ 1] the pages partition the match set: no film is on two pages and
    every film of the match set is on some page. *)
Theorem search_by_keyword_pages E k L :
  0 ≤ L →
  (∀ st O rows, (search_by_keyword E st k L O).2 = Rows rows →
                Z.of_nat (length rows) ≤ L) ∧
  (titles_distinct (the_catalog E) k →
   ∃ all,
     all ≡ₚ keyword_match_set (the_catalog E) k ∧
     NoDup (row_film_id <$> all) ∧ StronglySorted by_title all ∧
     (∀ st i, mysql_status E (mysql_connects st) = Reachable →
        keyword_page E st k L i = limit_offset L (Z.of_nat i * L) all ∧
        (search_by_keyword E st k L (Z.of_nat i * L)).2 =
        Rows (row_dict <$> keyword_page E st k L i)) ∧
     (∀ (sts : nat → state) n,
        (∀ i, mysql_status E (mysql_connects (sts i)) = Reachable) →
        concat ((λ i, keyword_page E (sts i) k L i) <$> seq 0 n) =
        take (n * Z.to_nat L) all) ∧
     (0 < L → pages_partition E k L)).
Proof.
  intros HL. split.
  { intros st O rows. rewrite search_by_keyword_rows. intros [= <-].
    rewrite length_fmap. unfold answered_rows.
    destruct (mysql_status E (mysql_connects st)); simpl; try lia.
    case_decide; simpl; [|lia]. by apply limit_offset_length. }
  intros Hdistinct.
  set (all := keyword_matches (λ _, 0) (the_catalog E) ("%" +:+ k +:+ "%")).
  assert (∀ st i, mysql_status E (mysql_connects st) = Reachable →
            keyword_page E st k L i = take (Z.to_nat L) (drop (i * Z.to_nat L) all))
    as Hpage.
  { intros st i Hs. rewrite keyword_page_window by done.
    by rewrite (keyword_order_unique _ (λ _, 0) _ _ Hdistinct). }
  assert (NoDup (row_film_id <$> all)) as Hnd by apply keyword_matches_NoDup.
  exists all. split_and!.
  - apply keyword_matches_perm.
  - exact Hnd.
  - apply keyword_matches_sorted.
  - intros st i Hs. split; [|apply search_by_keyword_rows].
    rewrite Hpage by done. unfold limit_offset. do 2 f_equal. nia.
  - intros sts n Hs. rewrite <- pages_concat. f_equal. apply list_fmap_ext.
    intros _ i _. by apply Hpage.
  - intros HL' sts Hs. split.
    + intros i j id Hij. rewrite !Hpage by done.
      rewrite !fmap_take, !fmap_drop. by apply pages_disjoint.
    + intros row Hrow.
      destruct (window_covers all (Z.to_nat L) row) as [i Hi]; [lia| |].
      * unfold all. by rewrite keyword_matches_perm.
      * exists i. by rewrite Hpage.
Qed.

Lemma search_by_keyword_pages_witness :
  pages_partition (alternating sample_catalog) "e" 1.
Proof.
  destruct (search_by_keyword_pages (alternating sample_catalog) "e" 1)
    as [_ Hpages]; [lia|].
  destruct Hpages as (all & _ & _ & _ & _ & _ & Hpartition).
  - apply (bool_decide_unpack _). by vm_compute.
  - apply Hpartition. lia.
Defined.

(** C2 as stated fails: the statement orders by title only, and two films
    with the same title may come in one order at one execution and in the
    other order at the next.  Then the second page of size one, requested
    after the first, shows the film the first page showed, and the other
    film is on no page. *)
Lemma search_by_keyword_pages_overlap :
  let E := alternating twin_catalog in
  let first := search_by_keyword E initial_state "alien" 1 0 in
  let second := search_by_keyword E first.1 "alien" 1 1 in
  first.2 = second.2 ∧
  first.2 = Rows [row_dict (FilmRow 1 "Alien" 1979 "R" "Horror" "Sigourney Weaver")] ∧
  length (keyword_match_set twin_catalog "alien") = 2%nat ∧
  ¬ pages_partition E "alien" 1.
Proof.
  intros E first second. split_and!; [by vm_compute..|].
  intros Hpartition.
  destruct (Hpartition
              (λ i, match i with
                    | O => initial_state
                    | S _ => (search_by_keyword (alternating twin_catalog)
                                                initial_state "alien" 1 0).1
                    end)) as [Hdisjoint _]; [done|].
  apply (Hdisjoint 0%nat 1%nat 1); [done|by vm_compute; left..].
Qed.

(** ** Inner joins *)

Lemma answered_rows_linked E st q row :
  is_search q → row ∈ answered_rows E st q →
  ∃ f, f ∈ films (the_catalog E) ∧ film_id f = row_film_id row ∧
       has_actor (the_catalog E) (film_id f) ∧
       has_category (the_catalog E) (film_id f).
Proof.
  intros Hq Hrow.
  destruct (answered_rows_sound E st q row Hq Hrow) as (r & Hr & Hid & _).
  exists (jf r). destruct (from_joins_linked _ _ Hr) as [? ?].
  by apply elem_of_from_joins in Hr as [? _].
Qed.

Lemma no_links_not_linked cat i :
  actor_links cat i = [] ∨ category_links cat i = [] →
  ¬ (has_actor cat i ∧ has_category cat i).
Proof.
  unfold actor_links, category_links.
  intros [Hnil|Hnil] [(fa & a & Hfa & Hid & _) (fc & c & Hfc & Hid' & _)].
  - assert (fa ∈ filter (λ fa, fa_film_id fa = i) (film_actors cat)) as Hin
      by (by apply list_elem_of_filter).
    rewrite Hnil in Hin. by apply elem_of_nil in Hin.
  - assert (fc ∈ filter (λ fc, fc_film_id fc = i) (film_categories cat)) as Hin
      by (by apply list_elem_of_filter).
    rewrite Hnil in Hin. by apply elem_of_nil in Hin.
Qed.

(** C10: the records [search_by_keyword] and [search_by_genre_and_year]
    return are the rows the server answered, each row is the row of a film
    of the catalog that has a credited actor and a category, and a film
    without actor link or without category link is in no result page. *)
Theorem search_results_have_actor_and_category E st :
  let cat := the_catalog E in
  let credited rows :=
    (∀ row, row ∈ rows →
       ∃ f, f ∈ films cat ∧ film_id f = row_film_id row ∧
            has_actor cat (film_id f) ∧ has_category cat (film_id f)) ∧
    (∀ i, actor_links cat i = [] ∨ category_links cat i = [] →
          i ∉ row_film_id <$> rows) in
  (∀ k L O,
     let rows := answered_rows E st (SEARCH_BY_KEYWORD ("%" +:+ k +:+ "%") L O) in
     (search_by_keyword E st k L O).2 = Rows (row_dict <$> rows) ∧ credited rows) ∧
  (∀ genre year_from year_to L O,
     let rows :=
       answered_rows E st (SEARCH_BY_GENRE_AND_YEAR genre year_from year_to L O) in
     (search_by_genre_and_year E st genre year_from year_to L O).2 =
     Rows (row_dict <$> rows) ∧ credited rows).
Proof.
  intros cat credited.
  assert (∀ q, is_search q → credited (answered_rows E st q)) as Hcred.
  { intros q Hq. split.
    - intros row Hrow. by apply (answered_rows_linked E st q).
    - intros i Hno (row & -> & Hrow)%list_elem_of_fmap.
      destruct (answered_rows_linked E st q row Hq Hrow) as (f & _ & Hid & ? & ?).
      apply (no_links_not_linked cat _ Hno). by rewrite <- Hid. }
  split.
  - intros k L O rows. split; [apply search_by_keyword_rows|by apply Hcred].
  - intros genre year_from year_to L O rows.
    split; [apply search_by_genre_and_year_rows|by apply Hcred].
Qed.

(** ** [get_year_range] *)

Lemma foldr_min_spec x l :
  foldr Z.min x l ∈ x :: l ∧ ∀ y, y ∈ x :: l → foldr Z.min x l ≤ y.
Proof.
  induction l as [|z l [IHin IHle]]; simpl.
  - split; [by left|]. intros y Hy. apply list_elem_of_singleton in Hy. lia.
  - split.
    + destruct (Z.min_spec z (foldr Z.min x l)) as [[_ ->]|[_ ->]].
      * right. by left.
      * apply elem_of_cons in IHin as [->|?]; [by left|]. right. by right.
    + intros y Hy. rewrite !elem_of_cons in Hy.
      destruct Hy as [->|[->|Hy]].
      * assert (x ∈ x :: l) as Hx%IHle by (by left). lia.
      * lia.
      * assert (y ∈ x :: l) as Hy'%IHle by (by right). lia.
Qed.

Lemma foldr_max_spec x l :
  foldr Z.max x l ∈ x :: l ∧ ∀ y, y ∈ x :: l → y ≤ foldr Z.max x l.
Proof.
  induction l as [|z l [IHin IHle]]; simpl.
  - split; [by left|]. intros y Hy. apply list_elem_of_singleton in Hy. lia.
  - split.
    + destruct (Z.max_spec z (foldr Z.max x l)) as [[_ ->]|[_ ->]].
      * apply elem_of_cons in IHin as [->|?]; [by left|]. right. by right.
      * right. by left.
    + intros y Hy. rewrite !elem_of_cons in Hy.
      destruct Hy as [->|[->|Hy]].
      * assert (x ∈ x :: l) as Hx%IHle by (by left). lia.
      * lia.
      * assert (y ∈ x :: l) as Hy'%IHle by (by right). lia.
Qed.

Lemma get_year_range_answered E st :
  mysql_status E (mysql_connects st) = Reachable →
  (get_year_range E st).2 =
  Ok (sql_min (release_year <$> films (the_catalog E)),
      sql_max (release_year <$> films (the_catalog E))).
Proof.
  intros Hs. unfold get_year_range, execute_query, get_db_connection.
  rewrite Hs. simpl. rewrite Hs. simpl.
  rewrite bool_decide_eq_false_2 by apply insert_non_empty. simpl.
  unfold getitem. rewrite lookup_insert_eq.
  rewrite lookup_insert_ne by done. by rewrite lookup_singleton_eq.
Qed.

(** When the server does not answer, the range is [(0, 0)]. *)
Lemma get_year_range_unreachable E st :
  mysql_status E (mysql_connects st) ≠ Reachable →
  (get_year_range E st).2 = Ok (PyInt 0, PyInt 0).
Proof.
  intros Hs. unfold get_year_range, execute_query, get_db_connection.
  destruct (mysql_status E (mysql_connects st)) eqn:Hs'; [done|done|].
  simpl. by rewrite Hs'.
Qed.

(** On a catalog with films and a server that answers, the range is the
    least and the greatest release year. *)
Lemma get_year_range_nonempty E st :
  mysql_status E (mysql_connects st) = Reachable →
  films (the_catalog E) ≠ [] →
  ∃ lo hi, (get_year_range E st).2 = Ok (PyInt lo, PyInt hi) ∧
           lo ∈ release_year <$> films (the_catalog E) ∧
           hi ∈ release_year <$> films (the_catalog E) ∧
           ∀ y, y ∈ release_year <$> films (the_catalog E) → lo ≤ y ≤ hi.
Proof.
  intros Hs Hne. rewrite get_year_range_answered by done.
  destruct (films (the_catalog E)) as [|f l]; [done|]. rewrite fmap_cons. simpl.
  destruct (foldr_min_spec (release_year f) (release_year <$> l)) as [? Hmin].
  destruct (foldr_max_spec (release_year f) (release_year <$> l)) as [? Hmax].
  eexists _, _. split; [done|]. split; [done|]. split; [done|].
  intros y Hy. split; [by apply Hmin|by apply Hmax].
Qed.

(** On a catalog without films and a server that answers, the aggregate row
    holds two [NULL]s, the row is a non-empty dictionary, and the function
    returns [(None, None)]. *)
Lemma get_year_range_no_films E st :
  mysql_status E (mysql_connects st) = Reachable →
  films (the_catalog E) = [] →
  (get_year_range E st).2 = Ok (PyNone, PyNone).
Proof.
  intros Hs Hnil. rewrite get_year_range_answered by done. by rewrite Hnil.
Qed.

(** C3 (failing input): on the empty catalog, with the server answering,
    [get_year_range()] returns [(None, None)] and not [(0, 0)]. *)
Theorem get_year_range_empty_catalog :
  (get_year_range (serving empty_catalog) initial_state).2 = Ok (PyNone, PyNone) ∧
  (get_year_range (serving empty_catalog) initial_state).2 ≠ Ok (PyInt 0, PyInt 0).
Proof.
  rewrite get_year_range_no_films by done. split; [done|]. discriminate.
Qed.

(** * Properties of the analytics client *)

(** ** Connection reuse *)

Lemma get_mongo_collection_body_cached E clients g h :
  _mongo_collection g = Some h →
  get_mongo_collection_body E clients g = (clients, g, Some h).
Proof. intros H. unfold get_mongo_collection_body. by rewrite H. Qed.

Lemma get_mongo_collection_body_connect E clients g :
  _mongo_collection g = None →
  get_mongo_collection_body E clients g =
  if mongo_connect_ok E clients
  then (S clients, MongoGlobals (Some clients) (Some clients), Some clients)
  else (S clients, MongoGlobals (Some clients) None, None).
Proof. intros H. unfold get_mongo_collection_body. by rewrite H. Qed.

Lemma reader_collection E st :
  let r := log_stats._get_mongo_collection E st in
  stored r.1 = stored st ∧ mongo_ops r.1 = mongo_ops st ∧
  (is_Some r.2 ↔
   is_Some (_mongo_collection (reader_globals st)) ∨
   mongo_connect_ok E (mongo_clients st) = true).
Proof.
  unfold log_stats._get_mongo_collection, get_mongo_collection_body.
  destruct (_mongo_collection (reader_globals st)) as [h|]; simpl.
  - split_and!; [done..|]. split; [by left|by eexists].
  - destruct (mongo_connect_ok E (mongo_clients st)); simpl; split_and!; try done.
    + split; [by right|by eexists].
    + split; [by intros [? ?]|]. intros [[? ?]|?]; done.
Qed.

Lemma get_popular_queries_result E st L :
  (log_stats.get_popular_queries E st L).2 = [] ∨
  (reader_answers E st ∧
   log_stats.aggregate (stored st) L =
   Some (log_stats.get_popular_queries E st L).2).
Proof.
  unfold log_stats.get_popular_queries, reader_answers.
  destruct (reader_collection E st) as (Hst & Hops & Hsome).
  destruct (log_stats._get_mongo_collection E st) as [st1 [h|]]; simpl in *; [|by left].
  rewrite Hst, Hops. destruct (mongo_op_ok E (mongo_ops st)); [|by left].
  destruct (log_stats.aggregate (stored st) L) as [res|]; simpl; [|by left].
  right. split; [|done]. split; [|done]. apply Hsome. by eexists.
Qed.

Lemma get_popular_queries_answered E st L :
  reader_answers E st →
  (log_stats.get_popular_queries E st L).2 =
  default [] (log_stats.aggregate (stored st) L).
Proof.
  intros [Hc Hop]. unfold log_stats.get_popular_queries.
  destruct (reader_collection E st) as (Hst & Hops & Hsome).
  apply Hsome in Hc as [h Hh].
  destruct (log_stats._get_mongo_collection E st) as [st1 c]; simpl in *.
  subst c. simpl. by rewrite Hst, Hops, Hop.
Qed.

Lemma get_recent_queries_answered E st L :
  reader_answers E st →
  (log_stats.get_recent_queries E st L).2 =
  log_stats.find_sort_limit (stored st) L.
Proof.
  intros [Hc Hop]. unfold log_stats.get_recent_queries.
  destruct (reader_collection E st) as (Hst & Hops & Hsome).
  apply Hsome in Hc as [h Hh].
  destruct (log_stats._get_mongo_collection E st) as [st1 c]; simpl in *.
  subst c. simpl. by rewrite Hst, Hops, Hop.
Qed.

(** ** [get_popular_queries] *)

#[global] Instance by_count_desc_total : Total log_stats.by_count_desc.
Proof. intros a b. unfold log_stats.by_count_desc. lia. Qed.

#[global] Instance by_count_desc_trans : Transitive log_stats.by_count_desc.
Proof. intros a b c. unfold log_stats.by_count_desc. lia. Qed.

Lemma group_stage_ids docs :
  _id <$> log_stats.group_stage docs = remove_dups (log_stats.group_key <$> docs).
Proof.
  unfold log_stats.group_stage. rewrite <- list_fmap_compose.
  rewrite <- (list_fmap_id (remove_dups _)) at 2. by apply list_fmap_ext.
Qed.









(** ** [get_recent_queries] *)

#[global] Instance by_timestamp_desc_total : Total log_stats.by_timestamp_desc.
Proof. intros a b. unfold log_stats.by_timestamp_desc. lia. Qed.

#[global] Instance by_timestamp_desc_trans : Transitive log_stats.by_timestamp_desc.
Proof. intros a b c. unfold log_stats.by_timestamp_desc. lia. Qed.

Lemma clock_advances_inj docs x y :
  clock_advances docs → x ∈ docs → y ∈ docs → timestamp x = timestamp y → x = y.
Proof.
  unfold clock_advances. induction 1 as [|d docs Hs IH Hall]; [by rewrite elem_of_nil|].
  rewrite Forall_forall in Hall. rewrite !elem_of_cons.
  intros [->|Hx] [->|Hy] Heq; try done.
  - apply Hall in Hy. lia.
  - apply Hall in Hx. lia.
  - by apply IH.
Qed.

Lemma clock_advances_reverse docs :
  clock_advances docs → StronglySorted log_stats.by_timestamp_desc (reverse docs).
Proof.
  unfold clock_advances. induction 1 as [|d docs Hs IH Hall]; [constructor|].
  rewrite reverse_cons. apply StronglySorted_app_2; [|done|repeat constructor].
  intros x y Hx ->%list_elem_of_singleton. rewrite elem_of_reverse in Hx.
  rewrite Forall_forall in Hall. apply Hall in Hx.
  unfold log_stats.by_timestamp_desc. lia.
Qed.

Lemma newest_first_head sorted d :
  StronglySorted log_stats.by_timestamp_desc sorted → d ∈ sorted →
  ∃ first, head sorted = Some first ∧ timestamp d ≤ timestamp first.
Proof.
  intros Hs Hd. destruct Hs as [|first l _ Hall]; [by apply elem_of_nil in Hd|].
  exists first. split; [done|]. apply elem_of_cons in Hd as [->|Hd]; [lia|].
  rewrite Forall_forall in Hall. by apply Hall in Hd.
Qed.

Lemma head_take {A} (n : nat) (l : list A) : (0 < n)%nat → head (take n l) = head l.
Proof. destruct n; [lia|]. by destruct l. Qed.

(** C6 (amended): for [L ≥ 1], when the analytics server answers,
    [get_recent_queries(L)] returns the first [L] of the logged events
    ordered by timestamp descending; its first element is a logged event
    and no logged event has a later timestamp; and when the events were
    logged at strictly increasing clock readings its first element is the
    event logged last. *)
Theorem get_recent_queries_newest_first E st L :
  1 ≤ L → reader_answers E st →
  let docs := stored st in
  let res := (log_stats.get_recent_queries E st L).2 in
  most_recent docs L res ∧
  (∀ d, d ∈ docs →
        ∃ first, head res = Some first ∧ first ∈ docs ∧
                 timestamp d ≤ timestamp first) ∧
  (clock_advances docs → head res = last docs).
Proof.
  intros HL Hans docs res.
  assert (res = take (Z.to_nat L) (merge_sort log_stats.by_timestamp_desc docs)) as Hres.
  { unfold res. rewrite get_recent_queries_answered by done.
    unfold log_stats.find_sort_limit, log_stats.cursor_limit.
    rewrite decide_False by lia. do 2 f_equal. lia. }
  pose proof (merge_sort_Permutation log_stats.by_timestamp_desc docs) as Hperm.
  pose proof (StronglySorted_merge_sort log_stats.by_timestamp_desc docs) as Hsorted.
  assert (head res = head (merge_sort log_stats.by_timestamp_desc docs)) as Hhead.
  { rewrite Hres. apply head_take. lia. }
  split_and!.
  - by exists (merge_sort log_stats.by_timestamp_desc docs).
  - intros d Hd. rewrite <- Hperm in Hd.
    destruct (newest_first_head _ d Hsorted Hd) as (first & Hfirst & Hle).
    exists first. rewrite Hhead. split; [done|]. split; [|done].
    rewrite <- Hperm. by apply head_Some_elem_of.
  - intros Hclock. rewrite Hhead, <- head_reverse. f_equal.
    apply (StronglySorted_unique_strong log_stats.by_timestamp_desc); [|done| |].
    + intros x y Hx Hy Hxy Hyx. rewrite Hperm in Hx. rewrite elem_of_reverse in Hy.
      apply (clock_advances_inj docs); [done..|].
      unfold log_stats.by_timestamp_desc in *. lia.
    + by apply clock_advances_reverse.
    + by rewrite Hperm, reverse_Permutation.
Qed.

Lemma get_recent_queries_newest_first_witness :
  head (log_stats.get_recent_queries (serving sample_catalog) two_logged 1).2 =
  last (stored two_logged).
Proof.
  apply (get_recent_queries_newest_first (serving sample_catalog) two_logged 1).
  - lia.
  - split; [by right|done].
  - unfold clock_advances. vm_compute stored.
    repeat constructor; by vm_compute.
Defined.

(** C6 as stated fails at [L = 0]: the cursor's [limit(0)] means no limit,
    and all logged events are returned. *)
Lemma get_recent_queries_zero_returns_all :
  (log_stats.get_recent_queries (serving sample_catalog) two_logged 0).2 ≠ [] ∧
  ¬ most_recent (stored two_logged) 0
      (log_stats.get_recent_queries (serving sample_catalog) two_logged 0).2.
Proof.
  assert (length (log_stats.get_recent_queries (serving sample_catalog) two_logged 0).2
          = 2%nat) as Hlen by (by vm_compute).
  split.
  - intros Hnil. by rewrite Hnil in Hlen.
  - intros (sorted & _ & _ & Hres). by rewrite Hres in Hlen.
Qed.

(** ** Connection handles *)

Lemma get_db_connection_fresh E st :
  mysql_connects (get_db_connection E st).1 = S (mysql_connects st) ∧
  ∀ c, (get_db_connection E st).2 = Some c → c = mysql_connects st.
Proof.
  unfold get_db_connection.
  destruct (mysql_status E (mysql_connects st)); simpl; split; congruence.
Qed.

Lemma execute_query_connects E st q fetch_all :
  mysql_connects (execute_query E st q fetch_all).1 = S (mysql_connects st).
Proof.
  unfold execute_query, get_db_connection.
  by destruct (mysql_status E (mysql_connects st)).
Qed.

(** C7 (amended): each analytics module keeps its own handle. When the
    module's collection handle is cached, [_get_mongo_collection] returns
    it and changes nothing: no connection is attempted. When none is
    cached, exactly one connection is attempted; if it succeeds the new
    handle is returned and cached, and the next call returns that same
    handle; if it fails nothing is cached. The catalog connection is not
    cached: every [execute_query] opens a connection of its own and closes
    it before it returns. *)
Theorem analytics_handles_cached E st :
  let cached get_collection globals :=
    (∀ h, _mongo_collection (globals st) = Some h →
          get_collection E st = (st, Some h)) ∧
    (_mongo_collection (globals st) = None →
     let r := get_collection E st in
     mongo_clients r.1 = S (mongo_clients st) ∧
     r.2 = (if mongo_connect_ok E (mongo_clients st)
            then Some (mongo_clients st) else None) ∧
     _mongo_collection (globals r.1) = r.2 ∧
     (∀ h, r.2 = Some h → get_collection E r.1 = (r.1, Some h))) in
  cached log_writer._get_mongo_collection writer_globals ∧
  cached log_stats._get_mongo_collection reader_globals ∧
  (∀ q fetch_all,
     let r := execute_query E st q fetch_all in
     mysql_connects r.1 = S (mysql_connects st) ∧
     (mysql_connects st ∉ mysql_open st → mysql_open r.1 = mysql_open st)).
Proof.
  intros cached. split_and!.
  - split.
    + intros h Hh. unfold log_writer._get_mongo_collection.
      rewrite (get_mongo_collection_body_cached _ _ _ h Hh). by destruct st.
    + intros Hnone. unfold log_writer._get_mongo_collection.
      rewrite (get_mongo_collection_body_connect _ _ _ Hnone).
      destruct (mongo_connect_ok E (mongo_clients st)); simpl; split_and!; try done.
      intros h [= <-]. unfold log_writer._get_mongo_collection. by simpl.
  - split.
    + intros h Hh. unfold log_stats._get_mongo_collection.
      rewrite (get_mongo_collection_body_cached _ _ _ h Hh). by destruct st.
    + intros Hnone. unfold log_stats._get_mongo_collection.
      rewrite (get_mongo_collection_body_connect _ _ _ Hnone).
      destruct (mongo_connect_ok E (mongo_clients st)); simpl; split_and!; try done.
      intros h [= <-]. unfold log_stats._get_mongo_collection. by simpl.
  - intros q fetch_all r. split; [apply execute_query_connects|].
    apply execute_query_closes.
Qed.

Lemma analytics_handles_cached_witness :
  log_writer._get_mongo_collection (serving sample_catalog) two_logged =
  (two_logged, Some 0%nat).
Proof.
  destruct (analytics_handles_cached (serving sample_catalog) two_logged)
    as [[Hcached _] _].
  apply Hcached. reflexivity.
Defined.

(** C7 as stated fails for the catalog handle: two requests for a catalog
    connection get two different connections, and a second query opens a
    second connection. *)
Lemma catalog_connection_not_reused :
  ¬ connection_reused (serving sample_catalog) initial_state ∧
  ¬ query_connection_reused (serving sample_catalog) initial_state GET_ALL_GENRES.
Proof.
  unfold connection_reused, query_connection_reused. split; by vm_compute.
Qed.

(** * Properties of the presenter *)

Lemma add_rows_unsupported pre v post :
  ∃ e, add_rows (pre ++ EOther v :: post) = Raise e.
Proof.
  induction pre as [|movie pre [e IH]]; simpl.
  - by eexists.
  - destruct (render_row movie); [|by eexists]. rewrite IH. by eexists.
Qed.

Lemma add_rows_reaches pre v post :
  Forall renders pre →
  add_rows (pre ++ EOther v :: post) = Raise (ValueError "Unsupported data format").
Proof.
  induction 1 as [|movie pre [row Hrow] _ IH]; simpl; [done|].
  by rewrite Hrow, IH.
Qed.

(** C9: when a record that is neither a dict nor a tuple is among the rows
    [format_results] renders, that is among [results[:max_rows]], the call
    raises and prints nothing; when the loop reaches that record, every
    row before it having been added, what it raises is
    [ValueError("Unsupported data format")]. *)
Theorem format_results_unsupported results max_rows pre v post :
  list_slice_to results max_rows = pre ++ EOther v :: post →
  (∃ e, format_results results max_rows = Raise e) ∧
  (Forall renders pre →
   format_results results max_rows = Raise (ValueError "Unsupported data format")).
Proof.
  intros Hslice. unfold format_results.
  destruct results as [|movie results].
  { unfold list_slice_to in Hslice. case_decide; rewrite take_nil in Hslice;
      by destruct pre. }
  rewrite Hslice. split.
  - destruct (add_rows_unsupported pre v post) as [e ->]. by eexists.
  - intros Hpre. by rewrite add_rows_reaches.
Qed.

Lemma format_results_unsupported_witness :
  format_results [EDict (row_dict (FilmRow 1 "Inception" 2010 "PG-13" "Sci-Fi"
                                           "Leonardo DiCaprio"));
                  EOther (PyInt 42)] 10 =
  Raise (ValueError "Unsupported data format").
Proof.
  apply (format_results_unsupported _ 10
           [EDict (row_dict (FilmRow 1 "Inception" 2010 "PG-13" "Sci-Fi"
                                     "Leonardo DiCaprio"))]
           (PyInt 42) []).
  - reflexivity.
  - repeat constructor. eexists. by vm_compute.
Defined.

(** A row before the unsupported record that fails on its own raises its
    own exception first. *)
Lemma format_results_earlier_failure :
  format_results [EDict {[ "actors" := PyInt 5 ]}; EOther (PyInt 42)] 10 =
  Raise (TypeError "object of type 'int' has no len()").
Proof. by vm_compute. Qed.

(** The rows of a search are dictionaries with a text [actors] field, so
    the presenter renders them. *)
Lemma render_row_dict r : renders (EDict (row_dict r)).
Proof.
  unfold renders, render_row, dict_get.
  assert (row_dict r !! "actors" = Some (PyStr (row_actors r))) as ->
    by (vm_compute; reflexivity).
  simpl. unfold truncate_text. destruct (negb _); simpl; [by eexists|].
  case_decide; simpl; by eexists.
Qed.

Lemma add_rows_renders movies :
  Forall renders movies → ∃ rows, add_rows movies = Ok rows.
Proof.
  induction 1 as [|movie movies [row Hrow] _ [rows IH]]; simpl; [by eexists|].
  rewrite Hrow. simpl. rewrite IH. by eexists.
Qed.

(** The presenter does not raise on the rows of a search. *)
Lemma format_results_search_rows (rows : list film_row) max_rows :
  ∃ out, format_results (EDict <$> (row_dict <$> rows)) max_rows = Ok out.
Proof.
  unfold format_results.
  destruct (EDict <$> (row_dict <$> rows)) as [|movie movies] eqn:Heq; [by eexists|].
  destruct (add_rows_renders (list_slice_to (movie :: movies) max_rows))
    as [out Hout]; [|rewrite Hout; by eexists].
  rewrite <- Heq. apply Forall_forall. intros m Hm.
  assert (m ∈ EDict <$> (row_dict <$> rows)) as Hin.
  { unfold list_slice_to in Hm. case_decide;
      apply elem_of_take in Hm as (i & Hi & _); by eapply list_elem_of_lookup_2. }
  apply list_elem_of_fmap in Hin as (d & -> & Hd).
  apply list_elem_of_fmap in Hd as (r & -> & _). apply render_row_dict.
Qed.

(** * Properties of the application loop *)

Lemma execute_query_stored E st q fetch_all :
  stored (execute_query E st q fetch_all).1 = stored st.
Proof.
  unfold execute_query, get_db_connection.
  by destruct (mysql_status E (mysql_connects st)).
Qed.

Lemma answered_rows_length E st q :
  match q with
  | SEARCH_BY_KEYWORD _ L _ | SEARCH_BY_GENRE_AND_YEAR _ _ _ L _ =>
    0 ≤ L → Z.of_nat (length (answered_rows E st q)) ≤ L
  | _ => True
  end.
Proof.
  unfold answered_rows.
  destruct q as [? L ?|? ? ? L ?| |]; try done; intros HL;
    (destruct (mysql_status E (mysql_connects st)); simpl; [|lia..];
     case_decide; simpl; [|lia]; by apply limit_offset_length).
Qed.

Lemma log_search_appends E st ty ps n :
  let r := log_writer.log_search E st ty ps n in
  stored r.1 = stored st ++ option_list (appended r.2 r.1) ∧
  ∀ d, appended r.2 r.1 = Some d →
       search_type d = ty ∧ params d = ps ∧ results_count d = n.
Proof.
  unfold log_writer.log_search, log_writer._get_mongo_collection, appended.
  destruct (get_mongo_collection_body E (mongo_clients st) (writer_globals st))
    as [[clients g] [h|]]; simpl; [|by rewrite app_nil_r].
  destruct (mongo_op_ok E (mongo_ops st)); simpl; [|by rewrite app_nil_r].
  rewrite last_snoc. simpl. split; [done|]. by intros d [= <-].
Qed.

Lemma keyword_iteration_spec E st keyword page :
  1 ≤ page →
  let r := keyword_iteration E st keyword page in
  match r.2 with
  | Ok s => stored r.1 = stored st ++ option_list (step_event s) ∧
            count_is_page_length E s ∧ keyword_page_plus_one s
  | Raise _ => stored r.1 = stored st
  end.
Proof.
  intros Hpage. unfold keyword_iteration.
  remember ((page - 1) * 10) as offset eqn:Hoff.
  pose proof (execute_query_stored E st
    (SEARCH_BY_KEYWORD ("%" +:+ keyword +:+ "%") 10 offset) true) as Hst.
  pose proof (search_by_keyword_rows E st keyword 10 offset) as Hrows.
  pose proof (answered_rows_length E st
    (SEARCH_BY_KEYWORD ("%" +:+ keyword +:+ "%") 10 offset)) as Hlen.
  unfold search_by_keyword in *.
  destruct (execute_query E st _ true) as [st1 res] eqn:Hq. simpl in Hst, Hrows.
  destruct (format_results _ 10); simpl; [|done].
  match goal with
  | |- context [log_writer.log_search E st1 ?ty ?ps ?n] =>
    pose proof (log_search_appends E st1 ty ps n) as [Happ Hev];
    destruct (log_writer.log_search E st1 ty ps n) as [st2 ok]
  end.
  simpl in *. rewrite Happ, Hst. split; [done|]. split.
  - split; [exists st; cbn [step_results step_statement]; by rewrite Hq|]. split.
    + rewrite Hrows. simpl. rewrite length_fmap. apply Hlen. lia.
    + intros d Hd. by apply Hev in Hd as (_ & _ & ?).
  - intros pattern limit offset' [= <- <- <-]. split_and!; try done.
    exists keyword. split; [done|]. intros p d Hp Hd.
    assert (p = page) as -> by lia.
    apply Hev in Hd as (? & Hps & _). rewrite Hps. split_and!; [done| |].
    + apply lookup_insert_eq.
    + rewrite lookup_insert_ne by done. apply lookup_singleton_eq.
Qed.

Lemma genre_iteration_spec E st genre year_from year_to year_choice page :
  let r := genre_iteration E st genre year_from year_to year_choice page in
  match r.2 with
  | Ok s => stored r.1 = stored st ++ option_list (step_event s) ∧
            count_is_page_length E s ∧ keyword_page_plus_one s
  | Raise _ => stored r.1 = stored st
  end.
Proof.
  unfold genre_iteration.
  remember ((page - 1) * 10) as offset eqn:Hoff.
  pose proof (execute_query_stored E st
    (SEARCH_BY_GENRE_AND_YEAR genre year_from year_to 10 offset) true) as Hst.
  pose proof (search_by_genre_and_year_rows E st genre year_from year_to 10
                offset) as Hrows.
  pose proof (answered_rows_length E st
    (SEARCH_BY_GENRE_AND_YEAR genre year_from year_to 10 offset)) as Hlen.
  unfold search_by_genre_and_year in *.
  destruct (execute_query E st _ true) as [st1 res] eqn:Hq. simpl in Hst, Hrows.
  destruct (format_results _ 10); simpl; [|done].
  match goal with
  | |- context [log_writer.log_search E st1 ?ty ?ps ?n] =>
    pose proof (log_search_appends E st1 ty ps n) as [Happ Hev];
    destruct (log_writer.log_search E st1 ty ps n) as [st2 ok]
  end.
  simpl in *. rewrite Happ, Hst. split; [done|]. split.
  - split; [exists st; cbn [step_results step_statement]; by rewrite Hq|]. split.
    + rewrite Hrows. simpl. rewrite length_fmap. apply Hlen. lia.
    + intros d Hd. by apply Hev in Hd as (_ & _ & ?).
  - by intros pattern limit offset'.
Qed.

(** A search of the loop always reaches its [log_search] call: the
    presenter does not raise on what the search returned. *)
Lemma keyword_iteration_logs E st keyword page :
  ∃ s, (keyword_iteration E st keyword page).2 = Ok s.
Proof.
  unfold keyword_iteration.
  pose proof (search_by_keyword_rows E st keyword 10 ((page - 1) * 10)) as Hrows.
  destruct (search_by_keyword E st keyword 10 ((page - 1) * 10)) as [st1 res].
  simpl in Hrows. subst res. cbn [as_list].
  destruct (format_results_search_rows
              (answered_rows E st
                 (SEARCH_BY_KEYWORD ("%" +:+ keyword +:+ "%") 10 ((page - 1) * 10))) 10)
    as [out ->].
  destruct (log_writer.log_search E st1 _ _ _). by eexists.
Qed.

Lemma genre_iteration_logs E st genre year_from year_to year_choice page :
  ∃ s, (genre_iteration E st genre year_from year_to year_choice page).2 = Ok s.
Proof.
  unfold genre_iteration.
  pose proof (search_by_genre_and_year_rows E st genre year_from year_to 10
                ((page - 1) * 10)) as Hrows.
  destruct (search_by_genre_and_year E st genre year_from year_to 10
              ((page - 1) * 10)) as [st1 res].
  simpl in Hrows. subst res. cbn [as_list].
  destruct (format_results_search_rows
              (answered_rows E st
                 (SEARCH_BY_GENRE_AND_YEAR genre year_from year_to 10
                    ((page - 1) * 10))) 10)
    as [out ->].
  destruct (log_writer.log_search E st1 _ _ _). by eexists.
Qed.

Lemma get_all_genres_stored E st : stored (get_all_genres E st).1 = stored st.
Proof.
  unfold get_all_genres.
  pose proof (execute_query_stored E st GET_ALL_GENRES true) as H.
  by destruct (execute_query E st GET_ALL_GENRES true).
Qed.

Lemma get_year_range_stored E st : stored (get_year_range E st).1 = stored st.
Proof.
  unfold get_year_range.
  pose proof (execute_query_stored E st GET_YEAR_RANGE false) as H.
  by destruct (execute_query E st GET_YEAR_RANGE false).
Qed.

Lemma get_popular_queries_stored E st L :
  stored (log_stats.get_popular_queries E st L).1 = stored st.
Proof.
  unfold log_stats.get_popular_queries.
  destruct (reader_collection E st) as (Hst & _).
  by destruct (log_stats._get_mongo_collection E st) as [st1 [h|]].
Qed.

Lemma get_recent_queries_stored E st L :
  stored (log_stats.get_recent_queries E st L).1 = stored st.
Proof.
  unfold log_stats.get_recent_queries.
  destruct (reader_collection E st) as (Hst & _).
  by destruct (log_stats._get_mongo_collection E st) as [st1 [h|]].
Qed.

Lemma navigate_page nav page : 1 ≤ page → 1 ≤ navigate nav page.
Proof. unfold navigate. intros. repeat case_decide; lia. Qed.

Lemma set_mode_inv E st0 a st m :
  run_inv E st0 a → stored st = stored (app_state a) → 1 ≤ page_of m →
  run_inv E st0 (set_mode a st m).
Proof.
  intros (Hst & Hc & Hk & _) Heq Hm. unfold run_inv, set_mode. simpl.
  by rewrite Heq.
Qed.

Lemma paginate_inv E st0 a (r : state * outcome search_step) next :
  run_inv E st0 a →
  match r.2 with
  | Ok s => stored r.1 = stored (app_state a) ++ option_list (step_event s) ∧
            count_is_page_length E s ∧ keyword_page_plus_one s
  | Raise _ => stored r.1 = stored (app_state a)
  end →
  1 ≤ page_of next →
  run_inv E st0 (paginate a r next).
Proof.
  intros (Hst & Hc & Hk & _) Hr Hnext. unfold run_inv, paginate.
  destruct r as [st1 [s|e]]; simpl in *.
  - destruct Hr as (Hst1 & Hcs & Hks). split_and!.
    + rewrite Hst1, Hst, omap_app, <- app_assoc. simpl.
      by destruct (step_event s).
    + apply Forall_app_2; [done|by constructor].
    + apply Forall_app_2; [done|by constructor].
    + done.
  - by rewrite Hr.
Qed.

Lemma step_inv E st0 a line : run_inv E st0 a → run_inv E st0 (step E a line).
Proof.
  intros Ha. pose proof Ha as (_ & _ & _ & Hpage).
  unfold step. destruct (app_mode a) eqn:Hm; simpl in Hpage.
  - repeat case_decide; try done.
    + by apply set_mode_inv.
    + pose proof (get_all_genres_stored E (app_state a)) as Hg.
      destruct (get_all_genres E (app_state a)) as [st1 [genres|e]]; simpl in Hg.
      * pose proof (get_year_range_stored E st1) as Hy.
        destruct (get_year_range E st1) as [st2 [[lo hi]|e]]; simpl in Hy;
          apply set_mode_inv; simpl; congruence || done.
      * by apply set_mode_inv.
    + pose proof (get_popular_queries_stored E (app_state a) 5) as Hp.
      destruct (log_stats.get_popular_queries E (app_state a) 5) as [st1 qs].
      destruct Ha as (Hst & Hc & Hk & _). unfold run_inv. simpl in *.
      by rewrite Hp.
    + pose proof (get_recent_queries_stored E (app_state a) 5) as Hp.
      destruct (log_stats.get_recent_queries E (app_state a) 5) as [st1 qs].
      destruct Ha as (Hst & Hc & Hk & _). unfold run_inv. simpl in *.
      by rewrite Hp.
    + by apply set_mode_inv.
  - apply paginate_inv; [done| |done]. by apply keyword_iteration_spec.
  - case_decide; [by apply set_mode_inv|].
    apply paginate_inv; [done| |by apply navigate_page].
    by apply keyword_iteration_spec, navigate_page.
  - case_decide; by apply set_mode_inv.
  - repeat case_decide; by apply set_mode_inv.
  - destruct (py_int line) as [year|]; [|done].
    destruct (in_range _ _ year) as [[]|]; [| done |by apply set_mode_inv].
    apply paginate_inv; [done| |done]. apply genre_iteration_spec.
  - destruct (py_int line) as [year|]; [|done]. by apply set_mode_inv.
  - destruct (py_int line) as [year_to|]; [|by apply set_mode_inv].
    destruct (in_range _ _ year_from) as [[]|]; [| |]; try by apply set_mode_inv.
    destruct (in_range _ _ year_to) as [[]|]; [| |]; try by apply set_mode_inv.
    case_decide; [by apply set_mode_inv|].
    apply paginate_inv; [done| |done]. apply genre_iteration_spec.
  - case_decide; [by apply set_mode_inv|].
    apply paginate_inv; [done| |by apply navigate_page].
    apply genre_iteration_spec.
  - done.
  - done.
Qed.

Lemma main_inv E st inputs : run_inv E st (main E st inputs).
Proof.
  unfold main.
  assert (run_inv E st (App st Menu [] [])) as Hinit.
  { unfold run_inv. simpl. by rewrite app_nil_r. }
  revert Hinit. generalize (App st Menu [] []).
  induction inputs as [|line inputs IH]; intros a Ha; [done|].
  simpl. by apply IH, step_inv.
Qed.

(** C4: every search the application loop performs, by keyword or by genre
    and year, returns a page of at most ten records, and the event the loop
    logs for it, when the log call appends one, carries the length of that
    page as [results_count]; the events the run appends to the collection
    are exactly those events, in order. *)
Theorem logged_count_is_page_length E st inputs :
  let a := main E st inputs in
  Forall (count_is_page_length E) (app_steps a) ∧
  stored (app_state a) = stored st ++ omap step_event (app_steps a).
Proof. intros a. destruct (main_inv E st inputs) as (? & ? & _). done. Qed.

(** C8: every keyword search of the application loop issues the catalog
    query with page size ten and offset [(p - 1) * 10] for its page
    variable [p ≥ 1], and the event logged for a search that fetches page
    [p] stores the keyword and [p + 1] under ["page"]. *)
Theorem keyword_log_page_plus_one E st inputs :
  Forall keyword_page_plus_one (app_steps (main E st inputs)).
Proof. by destruct (main_inv E st inputs) as (_ & _ & ? & _). Qed.

(** The sample session performs two keyword searches, for pages 1 and 2;
    two films match in all; the events logged carry the counts 2 and 0
    and the pages 2 and 3. *)
Example sample_session_logged :
  (λ s, (step_page s, length (step_results s))) <$> app_steps sample_session =
    [(1, 2%nat); (2, 0%nat)] ∧
  (λ d, (results_count d, params d !! "page")) <$> stored (app_state sample_session) =
    [(2, Some (PyInt 2)); (0, Some (PyInt 3))] ∧
  app_mode sample_session = Exited.
Proof. by vm_compute. Qed.

(** * Scenarios of the specification *)

(** Searching the sample catalog for "ince" returns the one record of
    "Inception"; once the search is logged with [results_count = 1] and
    page parameter 2, [get_recent_queries(1)] returns that event. *)
Example scenario_keyword_search :
  let E := serving sample_catalog in
  let r := search_by_keyword E initial_state "ince" 10 0 in
  let logged : pydict := {[ "keyword" := PyStr "ince"; "page" := PyInt 2 ]} in
  let st := (log_writer.log_search E r.1 "keyword" logged 1).1 in
  (λ d, d !! "title") <$> as_list r.2 = [Some (PyStr "Inception")] ∧
  (λ d, (search_type d, results_count d, bool_decide (params d = logged)))
    <$> (log_stats.get_recent_queries E st 1).2 = [("keyword"%string, 1, true)].
Proof. by vm_compute. Qed.

(** A genre and year search without matching film returns the empty list,
    the presenter prints the "no results" message, and the logged
    [results_count] is 0. *)
Example scenario_empty_search :
  (λ s, (step_statement s, step_results s)) <$> app_steps empty_search_session =
    [(SEARCH_BY_GENRE_AND_YEAR "Sci-Fi" 1990 2000 10 0, [])] ∧
  format_results [] 10 = Ok NoResultsFound ∧
  (λ d, (search_type d, results_count d, params d !! "year_range"))
    <$> stored (app_state empty_search_session) =
    [("genre_year"%string, 0, Some (PyStr "1990-2000"))].
Proof. by vm_compute. Qed.

(** The year range on the sample catalog, and with the server out of
    reach. *)
Example get_year_range_samples :
  (get_year_range (serving sample_catalog) initial_state).2 =
    Ok (PyInt 1979, PyInt 2010) ∧
  (get_year_range (unreachable sample_catalog) initial_state).2 =
    Ok (PyInt 0, PyInt 0).
Proof. by vm_compute. Qed.

(** * Further properties of the catalog client *)

Lemma genre_year_matches_sorted rank cat genre year_from year_to :
  StronglySorted by_year_title (genre_year_matches rank cat genre year_from year_to).
Proof.
  apply (StronglySorted_ties_by rank). apply StronglySorted_merge_sort; apply _.
Qed.

Lemma answered_rows_genre_year E st genre year_from year_to L O :
  mysql_status E (mysql_connects st) = Reachable → 0 ≤ L → 0 ≤ O →
  answered_rows E st (SEARCH_BY_GENRE_AND_YEAR genre year_from year_to L O) =
  limit_offset L O (genre_year_matches (row_rank E (mysql_connects st)) (the_catalog E) genre year_from year_to).
Proof.
  intros Hs HL HO. unfold answered_rows. rewrite Hs. simpl.
  by rewrite decide_True.
Qed.

Lemma genre_year_matches_contract rank cat genre year_from year_to :
  film_id_is_key cat →
  genre_year_contract cat genre year_from year_to
                      (genre_year_matches rank cat genre year_from year_to).
Proof.
  intros Hkey. unfold genre_year_contract.
  split; [apply genre_year_matches_NoDup|].
  split; [apply genre_year_matches_sorted|].
  split.
  - intros f Hf.
    rewrite (fmap_Permutation _ _ _ (genre_year_matches_perm rank cat _ _ _)). split.
    + rewrite list_elem_of_fmap. intros (row & Hid & Hrow).
      apply grouped_sound in Hrow as (r & Hr & [Hgenre Hyear] & Hid' & _).
      pose proof Hr as Hr'. apply elem_of_from_joins in Hr'
        as (Hfilm & [? ?] & [? ?] & [? ?] & [? ?]).
      assert (jf r = f) as <-.
      { apply (NoDup_fmap_eq film_id (films cat)); [done|done|done|congruence]. }
      split; [done|]. split.
      * by exists (jfc r), (jc r).
      * by exists (jfa r), (ja r).
    + intros (Hyear & (fc & c & ? & ? & ? & ? & Hgenre) & (fa & a & ? & ? & ? & ?)).
      apply (grouped_complete cat _ (Joined f fc c fa a)); [|done].
      apply elem_of_from_joins. simpl. tauto.
  - intros row Hrow. rewrite (genre_year_matches_perm rank cat _ _ _) in Hrow.
    apply grouped_sound in Hrow as (r & Hr & [Hgenre _] & ? & ? & ? & ? & Hg).
    exists (jf r). rewrite Hg. by apply elem_of_from_joins in Hr as [? _].
Qed.

(** X1: on a catalog in which film ids are unique, for [L], [O] not
    negative, [search_by_genre_and_year(genre, year_from, year_to, L, O)]
    returns, when the server answers, the window [O, O+L) of the sequence
    that holds once each film released in [year_from .. year_to] that is
    linked to a category named [genre] and has an actor, ordered by year
    and then title; when the server does not answer it returns the empty
    list. *)
Theorem search_by_genre_and_year_contract E st genre year_from year_to L O :
  film_id_is_key (the_catalog E) → 0 ≤ L → 0 ≤ O →
  let all := genre_year_matches (row_rank E (mysql_connects st)) (the_catalog E) genre year_from year_to in
  genre_year_contract (the_catalog E) genre year_from year_to all ∧
  (mysql_status E (mysql_connects st) = Reachable →
   (search_by_genre_and_year E st genre year_from year_to L O).2 =
   Rows (row_dict <$> limit_offset L O all)) ∧
  (mysql_status E (mysql_connects st) ≠ Reachable →
   (search_by_genre_and_year E st genre year_from year_to L O).2 = Rows []).
Proof.
  intros Hkey HL HO all. split; [by apply genre_year_matches_contract|].
  rewrite search_by_genre_and_year_rows. split; intros Hs.
  - by rewrite answered_rows_genre_year.
  - unfold answered_rows. by destruct (mysql_status E (mysql_connects st)).
Qed.

Lemma search_by_genre_and_year_contract_witness :
  (search_by_genre_and_year (serving sample_catalog) initial_state
                            "crime" 2000 2010 10 0).2 =
  Rows (row_dict <$> limit_offset 10 0
                       (genre_year_matches (λ i, i) sample_catalog "crime" 2000 2010)).
Proof.
  destruct (search_by_genre_and_year_contract (serving sample_catalog) initial_state
              "crime" 2000 2010 10 0) as (_ & Hans & _).
  - compute_done.
  - lia.
  - lia.
  - by apply Hans.
Defined.

(** X2: a year range given the wrong way round is not an error: with
    [year_to < year_from] the genre and year search returns the empty
    list, whatever the catalog and the state. *)
Theorem search_by_genre_and_year_inverted E st genre year_from year_to L O :
  year_to < year_from →
  (search_by_genre_and_year E st genre year_from year_to L O).2 = Rows [].
Proof.
  intros Hinv. rewrite search_by_genre_and_year_rows. f_equal.
  assert (genre_year_matches (row_rank E (mysql_connects st)) (the_catalog E) genre year_from year_to = []) as Hnil.
  { apply Permutation_nil_r. rewrite genre_year_matches_perm. unfold grouped.
    assert (filter (λ r, coll_eq (name (jc r)) genre ∧
                         year_from ≤ release_year (jf r) ≤ year_to)
                   (from_joins (the_catalog E)) = []) as ->; [|done].
    induction (from_joins (the_catalog E)) as [|r l IH]; [done|].
    rewrite filter_cons_False; [done|]. intros [_ ?]. lia. }
  unfold answered_rows. destruct (mysql_status E (mysql_connects st)); [|done..].
  simpl. case_decide; [|done]. simpl. rewrite Hnil. unfold limit_offset.
  by rewrite drop_nil, take_nil.
Qed.

Lemma search_by_genre_and_year_inverted_witness :
  (search_by_genre_and_year (serving sample_catalog) initial_state
                            "Crime" 2010 2000 10 0).2 = Rows [].
Proof.
  apply (search_by_genre_and_year_inverted (serving sample_catalog) initial_state
                                           "Crime" 2010 2000 10 0).
  lia.
Defined.

Lemma names_of_name_rows (l : list string) :
  names_of ((λ n, {[ "name" := PyStr n ]}) <$> l) = Ok (PyStr <$> l).
Proof.
  induction l as [|n l IH]; [done|].
  rewrite !fmap_cons. cbn [names_of]. unfold getitem at 1.
  rewrite lookup_singleton_eq. simpl. by rewrite IH.
Qed.

Lemma get_all_genres_answered E st :
  (get_all_genres E st).2 =
  Ok (PyStr <$> match mysql_status E (mysql_connects st) with
                | Reachable => all_genre_names (the_catalog E)
                | _ => []
                end).
Proof.
  unfold get_all_genres, execute_query, get_db_connection.
  destruct (mysql_status E (mysql_connects st)) eqn:Hs; simpl; [|done|by rewrite Hs].
  rewrite Hs. simpl. apply names_of_name_rows.
Qed.

(** X3: [get_all_genres()] never raises; when the server answers it returns
    the names of all rows of [category], each as often as it occurs there
    (no duplicate is removed), in ascending order; when the server does not
    answer it returns the empty list. *)
Theorem get_all_genres_sorted E st :
  ∃ names, (get_all_genres E st).2 = Ok (PyStr <$> names) ∧
    (mysql_status E (mysql_connects st) = Reachable →
     names ≡ₚ name <$> categories (the_catalog E) ∧ StronglySorted coll_le names) ∧
    (mysql_status E (mysql_connects st) ≠ Reachable → names = []).
Proof.
  eexists. split; [apply get_all_genres_answered|].
  destruct (mysql_status E (mysql_connects st)); split; try done.
  intros _. split; [apply merge_sort_Permutation|].
  apply StronglySorted_merge_sort; apply _.
Qed.

(** X4: [get_year_range()] never raises; when the server does not answer
    it returns [(0, 0)], and on a catalog with at least one film, the
    server answering, it returns two release years of the catalog between
    which all release years lie. *)
Theorem get_year_range_min_max E st :
  (mysql_status E (mysql_connects st) ≠ Reachable →
   (get_year_range E st).2 = Ok (PyInt 0, PyInt 0)) ∧
  (mysql_status E (mysql_connects st) = Reachable →
   films (the_catalog E) ≠ [] →
   ∃ lo hi, (get_year_range E st).2 = Ok (PyInt lo, PyInt hi) ∧
            lo ∈ release_year <$> films (the_catalog E) ∧
            hi ∈ release_year <$> films (the_catalog E) ∧
            ∀ f, f ∈ films (the_catalog E) → lo ≤ release_year f ≤ hi).
Proof.
  split; [apply get_year_range_unreachable|]. intros Hs Hne.
  destruct (get_year_range_nonempty E st Hs Hne) as (lo & hi & ? & ? & ? & Hall).
  exists lo, hi. split_and!; [done..|]. intros f Hf. apply Hall.
  apply list_elem_of_fmap. by exists f.
Qed.

Lemma get_year_range_min_max_witness :
  ∃ lo hi, (get_year_range (serving sample_catalog) initial_state).2 =
           Ok (PyInt lo, PyInt hi) ∧
           lo ∈ release_year <$> films sample_catalog ∧
           hi ∈ release_year <$> films sample_catalog ∧
           ∀ f, f ∈ films sample_catalog → lo ≤ release_year f ≤ hi.
Proof.
  destruct (get_year_range_min_max (serving sample_catalog) initial_state)
    as [_ Hsome].
  apply Hsome; [reflexivity|discriminate].
Defined.

Lemma append_empty_r (t : string) : t +:+ "" = t.
Proof.
  induction t as [|c t IH]; [done|].
  change (String c t +:+ "") with (String c (t +:+ "")). by rewrite IH.
Qed.

Lemma contains_ci_empty t : contains_ci "" t.
Proof.
  exists t, ""%string, ""%string. split; [|done].
  change ("" +:+ "")%string with ""%string. by rewrite append_empty_r.
Qed.

(** X5: an empty keyword selects every film that has a category and an
    actor: on a catalog in which film ids are unique, the server answering,
    [search_by_keyword("", L, O)] returns the window [O, O+L) of a
    sequence that holds each such film once, and no other film. *)
Theorem search_by_keyword_empty_keyword E st L O :
  film_id_is_key (the_catalog E) → 0 ≤ L → 0 ≤ O →
  mysql_status E (mysql_connects st) = Reachable →
  let cat := the_catalog E in
  let all := keyword_matches (row_rank E (mysql_connects st)) cat "%%" in
  (search_by_keyword E st "" L O).2 = Rows (row_dict <$> limit_offset L O all) ∧
  NoDup (row_film_id <$> all) ∧
  ∀ f, f ∈ films cat →
       film_id f ∈ row_film_id <$> all ↔
       has_category cat (film_id f) ∧ has_actor cat (film_id f).
Proof.
  intros Hkey HL HO Hs cat all.
  destruct (keyword_matches_contract (row_rank E (mysql_connects st)) cat "" Hkey)
    as (Hnd & _ & Hiff & _);
    [constructor|].
  split; [by rewrite search_by_keyword_rows, answered_rows_keyword|].
  split; [done|]. intros f Hf. unfold all.
  change "%%"%string with ("%" +:+ "" +:+ "%")%string.
  rewrite (Hiff f Hf). unfold linked_title_match.
  pose proof (contains_ci_empty (title f)). tauto.
Qed.

Lemma search_by_keyword_empty_keyword_witness :
  (search_by_keyword (serving sample_catalog) initial_state "" 10 0).2 =
  Rows (row_dict <$> limit_offset 10 0 (keyword_matches (λ i, i) sample_catalog "%%")).
Proof.
  apply (search_by_keyword_empty_keyword (serving sample_catalog) initial_state 10 0).
  - compute_done.
  - lia.
  - lia.
  - reflexivity.
Defined.

(** X6: when [n] films match and the server answers, the call for page
    [i] with page size [L ≥ 0] returns [min L (n - i * L)] records, none
    if that is negative: every page that ends within the matches is full,
    and every page that starts at or past their end is empty. *)
Theorem search_by_keyword_page_length E st k L i :
  0 ≤ L → mysql_status E (mysql_connects st) = Reachable →
  let n := length (keyword_matches (row_rank E (mysql_connects st)) (the_catalog E) ("%" +:+ k +:+ "%")) in
  ∃ rows, (search_by_keyword E st k L (Z.of_nat i * L)).2 = Rows rows ∧
          Z.of_nat (length rows) = page_length n L i ∧
          ((Z.of_nat i + 1) * L ≤ Z.of_nat n → Z.of_nat (length rows) = L) ∧
          (Z.of_nat n ≤ Z.of_nat i * L → rows = []).
Proof.
  intros HL Hs n. eexists. split.
  { rewrite search_by_keyword_rows, answered_rows_keyword; [done|done|lia|nia]. }
  rewrite length_fmap.
  assert (Z.of_nat (length (limit_offset L (Z.of_nat i * L)
            (keyword_matches (row_rank E (mysql_connects st)) (the_catalog E) ("%" +:+ k +:+ "%")))) =
          page_length n L i) as Hlen.
  { unfold limit_offset, page_length. rewrite length_take, length_drop. fold n.
    lia. }
  split; [done|]. split.
  - intros Hfull. rewrite Hlen. unfold page_length. lia.
  - intros Hpast.
    assert (limit_offset L (Z.of_nat i * L)
              (keyword_matches (row_rank E (mysql_connects st)) (the_catalog E) ("%" +:+ k +:+ "%")) = []) as ->;
      [|done].
    apply nil_length_inv, Nat2Z.inj. rewrite Hlen. unfold page_length. lia.
Qed.

Lemma search_by_keyword_page_length_witness :
  ∃ rows, (search_by_keyword (serving sample_catalog) initial_state "e" 1
                             (Z.of_nat 2 * 1)).2 = Rows rows ∧ rows = [].
Proof.
  destruct (search_by_keyword_page_length (serving sample_catalog) initial_state
              "e" 1 2) as (rows & Hrows & _ & _ & Hpast); [lia|reflexivity|].
  exists rows. split; [done|]. apply Hpast. by vm_compute.
Defined.

#[global] Instance by_last_name_total : Total by_last_name.
Proof. intros a b. apply (total coll_le). Qed.

#[global] Instance by_last_name_trans : Transitive by_last_name.
Proof. intros a b c. apply (transitivity (R := coll_le)). Qed.

Lemma grouped_cast cat (P : joined → Prop) `{!∀ r, Decision (P r)} row :
  ignores_actor P → row ∈ grouped cat P →
  ∃ cast, StronglySorted by_last_name cast ∧
          row_actors row = join_with ", " (remove_dups (full_name <$> cast)) ∧
          ∀ a, a ∈ cast ↔ credited cat (row_film_id row) a.
Proof.
  intros Hign. unfold grouped, group_by_film_id. rewrite <- list_fmap_compose.
  rewrite list_elem_of_fmap. intros (r0 & -> & Hr0).
  apply first_per_film_elem_of, list_elem_of_filter in Hr0 as [HP0 Hr0].
  set (g := filter (λ r', film_id (jf r') = film_id (jf r0))
                   (filter P (from_joins cat))).
  exists (merge_sort by_last_name (ja <$> g)). split_and!.
  - apply (StronglySorted_merge_sort by_last_name); apply _.
  - done.
  - intros a. rewrite merge_sort_Permutation. unfold g, credited. simpl.
    rewrite list_elem_of_fmap. split.
    + intros (r & -> & Hr). apply list_elem_of_filter in Hr as [Hid Hr].
      apply list_elem_of_filter in Hr as [_ Hr].
      apply elem_of_from_joins in Hr as (_ & _ & _ & [? ?] & [? ?]).
      split; [done|]. exists (jfa r). split_and!; [done|congruence|done].
    + intros [Ha (fa & Hfa & Hid & Hlink)].
      exists (Joined (jf r0) (jfc r0) (jc r0) fa a). split; [done|].
      apply list_elem_of_filter. split; [done|].
      apply list_elem_of_filter. split; [by apply Hign|].
      apply elem_of_from_joins in Hr0 as (? & ? & ? & _ & _).
      apply elem_of_from_joins. simpl. tauto.
Qed.

(** X7: the [actors] field of every record a search returns is the
    [", "]-joined list, without repetition, of the full names
    ([first_name], a space, [last_name]) of a cast that is ordered by last
    name and holds exactly the actors credited on the film of the
    record. *)
Theorem search_row_actors E st q row :
  is_search q → row ∈ answered_rows E st q →
  ∃ cast, StronglySorted by_last_name cast ∧
          NoDup (remove_dups (full_name <$> cast)) ∧
          row_actors row = join_with ", " (remove_dups (full_name <$> cast)) ∧
          ∀ a, a ∈ cast ↔ credited (the_catalog E) (row_film_id row) a.
Proof.
  intros Hq Hrow.
  assert (∃ (P : joined → Prop) (HP : ∀ r, Decision (P r)),
            ignores_actor P ∧ row ∈ grouped (the_catalog E) P) as (P & HP & Hign & Hin).
  { unfold answered_rows in Hrow.
    destruct (mysql_status E (mysql_connects st)); try by apply elem_of_nil in Hrow.
    destruct q; try done; simpl in Hrow; case_decide; simpl in Hrow;
      try by apply elem_of_nil in Hrow.
    - apply limit_offset_elem_of in Hrow. rewrite keyword_matches_perm in Hrow.
      eexists _, _. split; [|exact Hrow]. by intros r fa a.
    - apply limit_offset_elem_of in Hrow. rewrite genre_year_matches_perm in Hrow.
      eexists _, _. split; [|exact Hrow]. by intros r fa a. }
  destruct (grouped_cast _ P row Hign Hin) as (cast & ? & ? & ?).
  exists cast. split_and!; [done|apply NoDup_remove_dups|done|done].
Qed.

Lemma search_row_actors_witness :
  ∃ cast, StronglySorted by_last_name cast ∧
          NoDup (remove_dups (full_name <$> cast)) ∧
          "Matt Damon, Leonardo DiCaprio"%string =
            join_with ", " (remove_dups (full_name <$> cast)) ∧
          ∀ a, a ∈ cast ↔ credited sample_catalog 2 a.
Proof.
  apply (search_row_actors (serving sample_catalog) initial_state
           (SEARCH_BY_KEYWORD "%depart%" 10 0)
           (FilmRow 2 "The Departed" 2006 "R" "Crime" "Matt Damon, Leonardo DiCaprio")).
  - exact I.
  - vm_compute. by left.
Defined.

(** * Further properties of the analytics client *)

(** X8: [log_search] never raises and never touches the events already
    stored: it returns [True] exactly when the collection is cached or the
    connection attempt succeeds, and the insert succeeds; then the
    collection is the old one followed by one event with the clock reading
    and the three arguments; otherwise the collection is unchanged. *)
Theorem log_search_appends_one E st ty ps n :
  let r := log_writer.log_search E st ty ps n in
  (r.2 = true ↔ writer_succeeds E st) ∧
  (r.2 = true →
   stored r.1 = stored st ++
     [{| timestamp := utcnow E (mongo_ops st); search_type := ty;
         params := ps; results_count := n |}]) ∧
  (r.2 = false → stored r.1 = stored st).
Proof.
  unfold log_writer.log_search, log_writer._get_mongo_collection,
    get_mongo_collection_body, writer_succeeds.
  destruct (_mongo_collection (writer_globals st)) as [h|]; simpl.
  - destruct (mongo_op_ok E (mongo_ops st)); simpl; split_and!; try done.
    + split; [|done]. intros _. split; [left; by eexists|done].
    + split; [done|]. by intros [_ ?].
  - destruct (mongo_connect_ok E (mongo_clients st)); simpl.
    + destruct (mongo_op_ok E (mongo_ops st)); simpl; split_and!; try done.
      * split; [|done]. intros _. split; [by right|done].
      * split; [done|]. by intros [_ ?].
    + split_and!; try done. split; [done|]. by intros [[[? ?]|?] _].
Qed.

Lemma log_search_appends_one_witness :
  length (stored two_logged) = 2%nat.
Proof.
  unfold two_logged.
  destruct (log_search_appends_one (serving sample_catalog)
              (log_writer.log_search (serving sample_catalog) initial_state
                 "keyword" {[ "keyword" := PyStr "ince"; "page" := PyInt 2 ]} 1).1
              "genre_year" {[ "genre" := PyStr "Crime"; "year_range" := PyStr "2006" ]} 1)
    as (_ & Hok & _).
  rewrite Hok; [|reflexivity]. reflexivity.
Defined.

(** X9: [close_connection] is idempotent and leaves the stored events and
    the reader's handle alone; when no client was ever created it changes
    nothing; when there is a client it clears both globals of the writer,
    so that the next request for the collection makes a new connection
    attempt with a new client. *)
Theorem close_connection_clears E st :
  let st' := log_writer.close_connection st in
  log_writer.close_connection st' = st' ∧
  stored st' = stored st ∧ reader_globals st' = reader_globals st ∧
  (_mongo_client (writer_globals st) = None → st' = st) ∧
  (is_Some (_mongo_client (writer_globals st)) →
   writer_globals st' = MongoGlobals None None ∧
   mongo_clients (log_writer._get_mongo_collection E st').1 = S (mongo_clients st) ∧
   ∀ h, (log_writer._get_mongo_collection E st').2 = Some h → h = mongo_clients st).
Proof.
  unfold log_writer.close_connection.
  destruct (_mongo_client (writer_globals st)) as [c|] eqn:Hc; simpl.
  - split_and!; try done. intros _. split; [done|].
    unfold log_writer._get_mongo_collection, get_mongo_collection_body. simpl.
    destruct (mongo_connect_ok E (mongo_clients st)); simpl; split; congruence.
  - rewrite Hc. split_and!; try done.
Qed.

Lemma close_connection_clears_witness :
  writer_globals (log_writer.close_connection two_logged) = MongoGlobals None None.
Proof.
  destruct (close_connection_clears (serving sample_catalog) two_logged)
    as (_ & _ & _ & _ & Hclear).
  apply Hclear. by eexists.
Defined.

Lemma log_search_down E st ty ps n :
  _mongo_collection (writer_globals st) = None →
  mongo_connect_ok E (mongo_clients st) = false →
  let r := log_writer.log_search E st ty ps n in
  r.2 = false ∧ stored r.1 = stored st ∧
  mongo_clients r.1 = S (mongo_clients st) ∧
  writer_globals r.1 = MongoGlobals (Some (mongo_clients st)) None.
Proof.
  intros Hnone Hdown.
  unfold log_writer.log_search, log_writer._get_mongo_collection,
    get_mongo_collection_body.
  by rewrite Hnone, Hdown.
Qed.

(** X10: while the analytics server cannot be reached nothing is cached:
    every one of a sequence of [log_search] calls creates one more
    client, leaves it in [_mongo_client] with no collection, and stores
    nothing. *)
Theorem log_all_down E st calls :
  _mongo_collection (writer_globals st) = None →
  (∀ i, (i < length calls)%nat → mongo_connect_ok E (mongo_clients st + i) = false) →
  let st' := log_all E st calls in
  stored st' = stored st ∧
  mongo_clients st' = (mongo_clients st + length calls)%nat ∧
  _mongo_collection (writer_globals st') = None.
Proof.
  revert st. induction calls as [|[[ty ps] n] calls IH]; intros st Hnone Hdown.
  { simpl. split_and!; [done|lia|done]. }
  destruct (log_search_down E st ty ps n Hnone) as (_ & Hst & Hcl & Hg).
  { specialize (Hdown 0%nat). rewrite Nat.add_0_r in Hdown. apply Hdown. simpl. lia. }
  cbn [log_all foldl]. specialize (IH (log_writer.log_search E st ty ps n).1).
  destruct IH as (IHst & IHcl & IHnone).
  - by rewrite Hg.
  - intros i Hi. rewrite Hcl. replace (S (mongo_clients st) + i)%nat
      with (mongo_clients st + S i)%nat by lia. apply Hdown. simpl. lia.
  - unfold log_all in *. simpl. rewrite IHst, IHcl, Hst, Hcl.
    split_and!; [done|simpl; lia|done].
Qed.

Lemma log_all_down_witness :
  mongo_clients (log_all (analytics_down sample_catalog) initial_state
                   [("keyword"%string, ∅, 0); ("keyword"%string, ∅, 0)]) = 2%nat.
Proof.
  destruct (log_all_down (analytics_down sample_catalog) initial_state
              [("keyword"%string, ∅, 0); ("keyword"%string, ∅, 0)])
    as (_ & Hclients & _); [reflexivity|by intros i _|].
  exact Hclients.
Defined.

(** X11: an event that was logged successfully at a clock reading later
    than the timestamp of every event stored before is the first element
    of [get_recent_queries(L)], for [L ≥ 1] and the reader answering. *)
Theorem logged_event_is_most_recent E st ty ps n L :
  let r := log_writer.log_search E st ty ps n in
  r.2 = true →
  (∀ d, d ∈ stored st → timestamp d < utcnow E (mongo_ops st)) →
  1 ≤ L → reader_answers E r.1 →
  head (log_stats.get_recent_queries E r.1 L).2 =
  Some {| timestamp := utcnow E (mongo_ops st); search_type := ty;
          params := ps; results_count := n |}.
Proof.
  intros r Hok Hlater HL Hans.
  destruct (log_search_appends_one E st ty ps n) as (_ & Happ & _).
  specialize (Happ Hok). fold r in Happ.
  set (new := {| timestamp := utcnow E (mongo_ops st); search_type := ty;
                 params := ps; results_count := n |}) in *.
  rewrite get_recent_queries_answered by done.
  unfold log_stats.find_sort_limit, log_stats.cursor_limit.
  rewrite decide_False by lia. rewrite head_take by lia.
  pose proof (merge_sort_Permutation log_stats.by_timestamp_desc (stored r.1)) as Hperm.
  pose proof (StronglySorted_merge_sort log_stats.by_timestamp_desc (stored r.1))
    as Hsorted.
  destruct (newest_first_head _ new Hsorted) as (first & Hfirst & Hle).
  { rewrite Hperm, Happ. apply elem_of_app. right. by left. }
  rewrite Hfirst. f_equal.
  apply head_Some_elem_of in Hfirst. rewrite Hperm, Happ in Hfirst.
  apply elem_of_app in Hfirst as [Hold|Hnew%list_elem_of_singleton]; [|done].
  apply Hlater in Hold. simpl in Hle. lia.
Qed.

Lemma logged_event_is_most_recent_witness :
  head (log_stats.get_recent_queries (serving sample_catalog) two_logged 5).2 =
  Some {| timestamp := 1000; search_type := "genre_year";
          params := {[ "genre" := PyStr "Crime"; "year_range" := PyStr "2006" ]};
          results_count := 1 |}.
Proof.
  apply (logged_event_is_most_recent (serving sample_catalog)
           (log_writer.log_search (serving sample_catalog) initial_state
              "keyword" {[ "keyword" := PyStr "ince"; "page" := PyInt 2 ]} 1).1
           "genre_year" {[ "genre" := PyStr "Crime"; "year_range" := PyStr "2006" ]}
           1 5).
  - reflexivity.
  - intros d Hd. vm_compute in Hd.
    apply elem_of_cons in Hd as [->|Hd]; [by vm_compute|by apply elem_of_nil in Hd].
  - lia.
  - split; [by right|done].
Defined.

Lemma group_stage_elem docs k :
  k ∈ log_stats.group_key <$> docs →
  {| _id := k; count := occurrences docs k |} ∈ log_stats.group_stage docs.
Proof.
  intros Hk. unfold log_stats.group_stage. apply list_elem_of_fmap.
  exists k. split; [done|]. by apply elem_of_remove_dups.
Qed.

Lemma occurrences_snoc docs d :
  occurrences (docs ++ [d]) (log_stats.group_key d) =
  occurrences docs (log_stats.group_key d) + 1.
Proof.
  unfold occurrences. rewrite filter_app, length_app.
  rewrite filter_cons_True by done. rewrite filter_nil. simpl. lia.
Qed.

(** X12: after an event with parameters [ps] has been logged
    successfully, the ranking of [get_popular_queries] holds the group of
    the three fields of [ps] with a count one greater than the number of
    events of that group stored before, whatever the other fields of [ps]
    (such as the page); the function returns it when the reader answers
    and [L] is at least the number of groups. *)
Theorem logged_event_is_counted E st ty ps n L :
  let r := log_writer.log_search E st ty ps n in
  let ranked := log_stats.sort_stage (log_stats.group_stage (stored r.1)) in
  let g := {| _id := params_key ps;
              count := occurrences (stored st) (params_key ps) + 1 |} in
  r.2 = true →
  g ∈ ranked ∧
  (reader_answers E r.1 → Z.of_nat (length ranked) ≤ L →
   g ∈ (log_stats.get_popular_queries E r.1 L).2).
Proof.
  intros r ranked g Hok.
  destruct (log_search_appends_one E st ty ps n) as (_ & Happ & _).
  specialize (Happ Hok). fold r in Happ.
  assert (g ∈ ranked) as Hg.
  { unfold ranked, log_stats.sort_stage. rewrite merge_sort_Permutation, Happ.
    unfold g. change (params_key ps) with
      (log_stats.group_key {| timestamp := utcnow E (mongo_ops st);
         search_type := ty; params := ps; results_count := n |}).
    rewrite <- occurrences_snoc. apply group_stage_elem.
    rewrite fmap_app. apply elem_of_app. right. by left. }
  split; [done|]. intros Hans HL.
  rewrite get_popular_queries_answered by done.
  unfold log_stats.aggregate, log_stats.limit_stage. fold ranked.
  assert (0 < Z.of_nat (length ranked)).
  { destruct ranked; [by apply elem_of_nil in Hg|simpl; lia]. }
  rewrite decide_True by lia. simpl. rewrite take_ge by lia. done.
Qed.

Lemma logged_event_is_counted_witness :
  {| _id := params_key {[ "keyword" := PyStr "ince"; "page" := PyInt 7 ]};
     count := occurrences (stored two_logged)
                (params_key {[ "keyword" := PyStr "ince"; "page" := PyInt 7 ]}) + 1 |}
  ∈ log_stats.sort_stage (log_stats.group_stage
      (stored (log_writer.log_search (serving sample_catalog) two_logged "keyword"
                 {[ "keyword" := PyStr "ince"; "page" := PyInt 7 ]} 0).1)).
Proof.
  apply (logged_event_is_counted (serving sample_catalog) two_logged "keyword"
           {[ "keyword" := PyStr "ince"; "page" := PyInt 7 ]} 0 5).
  reflexivity.
Defined.

(** X13: whatever the state of the analytics server,
    [get_popular_queries(L)] returns at most [L] groups (none for [L ≤ 0]),
    each the group of some stored event, and [get_recent_queries(L)]
    returns stored events only, newest first, at most [|L|] of them when
    [L] is not zero. *)
Theorem statistics_bounds E st L :
  let popular := (log_stats.get_popular_queries E st L).2 in
  let recent := (log_stats.get_recent_queries E st L).2 in
  Z.of_nat (length popular) ≤ Z.max 0 L ∧
  (∀ g, g ∈ popular → ∃ d, d ∈ stored st ∧ _id g = log_stats.group_key d) ∧
  (∀ d, d ∈ recent → d ∈ stored st) ∧
  StronglySorted log_stats.by_timestamp_desc recent ∧
  (L ≠ 0 → Z.of_nat (length recent) ≤ Z.abs L).
Proof.
  intros popular recent.
  assert (popular = [] ∨ (0 < L ∧
            popular = take (Z.to_nat L)
                        (log_stats.sort_stage (log_stats.group_stage (stored st)))))
    as Hpop.
  { unfold popular.
    destruct (get_popular_queries_result E st L) as [?|[_ Hagg]]; [by left|].
    unfold log_stats.aggregate, log_stats.limit_stage in Hagg.
    case_decide; [|done]. right. split; [done|]. by injection Hagg as <-. }
  assert (recent = [] ∨ recent = log_stats.find_sort_limit (stored st) L) as Hrec.
  { unfold recent, log_stats.get_recent_queries.
    destruct (reader_collection E st) as (Hst & _ & _).
    destruct (log_stats._get_mongo_collection E st) as [st1 [h|]]; simpl in *;
      [|by left].
    rewrite Hst. destruct (mongo_op_ok E (mongo_ops st1)); [by right|by left]. }
  assert (log_stats.find_sort_limit (stored st) L `sublist_of`
          merge_sort log_stats.by_timestamp_desc (stored st)) as Hsub.
  { unfold log_stats.find_sort_limit, log_stats.cursor_limit.
    case_decide; [done|apply sublist_take]. }
  pose proof (StronglySorted_merge_sort log_stats.by_timestamp_desc (stored st))
    as Hsorted.
  split_and!.
  - destruct Hpop as [->|[HL ->]]; [simpl; lia|]. rewrite length_take. lia.
  - intros g Hg. destruct Hpop as [Hnil|[HL Hpop]];
      [rewrite Hnil in Hg; by apply elem_of_nil in Hg|].
    rewrite Hpop in Hg. apply elem_of_take in Hg as (i & Hi & _).
    apply list_elem_of_lookup_2 in Hi. unfold log_stats.sort_stage in Hi.
    rewrite merge_sort_Permutation in Hi.
    assert (_id g ∈ _id <$> log_stats.group_stage (stored st)) as Hid
      by (apply list_elem_of_fmap; by exists g).
    rewrite group_stage_ids in Hid.
    apply elem_of_remove_dups, list_elem_of_fmap in Hid as (d & ? & ?). by exists d.
  - intros d Hd. destruct Hrec as [Hnil|Hrec];
      [rewrite Hnil in Hd; by apply elem_of_nil in Hd|].
    rewrite Hrec in Hd. eapply sublist_submseteq, elem_of_submseteq in Hsub; [|done].
    by rewrite merge_sort_Permutation in Hsub.
  - destruct Hrec as [-> | ->]; [constructor|].
    unfold log_stats.find_sort_limit, log_stats.cursor_limit.
    case_decide; [done|].
    eapply StronglySorted_app_1_l. by erewrite take_drop.
  - intros HL. destruct Hrec as [-> | ->]; [simpl; lia|].
    unfold log_stats.find_sort_limit, log_stats.cursor_limit.
    rewrite decide_False by done. rewrite length_take. lia.
Qed.

(** * Further properties of the presenter *)

Lemma length_append (s1 s2 : string) :
  String.length (s1 +:+ s2) = (String.length s1 + String.length s2)%nat.
Proof.
  induction s1 as [|c s1 IH]; [done|].
  change (String c s1 +:+ s2) with (String c (s1 +:+ s2)). simpl. by rewrite IH.
Qed.

Lemma substring_0_length n s :
  String.length (substring 0 n s) = (n `min` String.length s)%nat.
Proof.
  revert s. induction n as [|n IH]; intros [|c s]; simpl; try done.
  by rewrite IH.
Qed.

Lemma substring_0_prefix n s : ∃ rest, s = substring 0 n s +:+ rest.
Proof.
  revert s. induction n as [|n IH]; intros [|c s]; simpl.
  - by exists ""%string.
  - by exists (String c s).
  - by exists ""%string.
  - destruct (IH s) as [rest Hrest]. exists rest.
    change (String c (substring 0 n s) +:+ rest)
      with (String c (substring 0 n s +:+ rest)). by rewrite <- Hrest.
Qed.

(** X14: for a text [s] and a bound [max_len ≥ 0], [truncate_text]
    returns [s] itself when [s] has at most [max_len] characters, and
    otherwise the first [max_len] characters of [s] followed by three dots;
    the result never has more than [max_len + 3] characters. [None] and
    zero give the empty string, and any other integer raises a
    [TypeError]. *)
Theorem truncate_text_bounded s max_len :
  0 ≤ max_len →
  ∃ out, truncate_text (PyStr s) max_len = Ok out ∧
    Z.of_nat (String.length out) ≤ max_len + 3 ∧
    (Z.of_nat (String.length s) ≤ max_len → out = s) ∧
    (max_len < Z.of_nat (String.length s) →
     ∃ kept rest, out = kept +:+ "..." ∧ s = kept +:+ rest ∧
                  Z.of_nat (String.length kept) = max_len) ∧
    truncate_text PyNone max_len = Ok ""%string ∧
    truncate_text (PyInt 0) max_len = Ok ""%string ∧
    ∀ z, z ≠ 0 → ∃ msg, truncate_text (PyInt z) max_len = Raise (TypeError msg).
Proof.
  intros Hmax.
  assert (∀ z, z ≠ 0 → ∃ msg, truncate_text (PyInt z) max_len = Raise (TypeError msg))
    as Hint.
  { intros z Hz. unfold truncate_text. simpl.
    destruct (z =? 0) eqn:Hz0; [lia|]. simpl. by eexists. }
  unfold truncate_text at 1. destruct s as [|c s].
  { simpl. eexists. split_and!; try done; simpl; lia. }
  cbn [truthy String.eqb negb]. case_decide as Hlen.
  - eexists. split; [done|].
    destruct (substring_0_prefix (Z.to_nat max_len) (String c s)) as [rest Hrest].
    unfold str_slice_to. rewrite decide_True by done.
    assert (Z.of_nat (String.length (substring 0 (Z.to_nat max_len) (String c s)))
            = max_len) as Hkept.
    { rewrite substring_0_length. lia. }
    split_and!; try done.
    + rewrite length_append. change (String.length "...") with 3%nat. lia.
    + lia.
    + intros _. by eexists _, rest.
  - eexists. split; [done|]. split_and!; try done; lia.
Qed.

Lemma truncate_text_bounded_witness :
  ∃ out, truncate_text (PyStr "Leonardo DiCaprio") 8 = Ok out ∧
         Z.of_nat (String.length out) ≤ 8 + 3.
Proof.
  destruct (truncate_text_bounded "Leonardo DiCaprio" 8) as (out & ? & ? & _); [lia|].
  by exists out.
Defined.

Lemma add_row_ok row out : add_row row = Ok out → out = row ∧ length row = 5%nat.
Proof. unfold add_row. case_decide; [|done]. by intros [= <-]. Qed.

Lemma render_row_length movie row : render_row movie = Ok row → length row = 5%nat.
Proof.
  destruct movie as [d|t|v]; simpl; [| |done].
  - destruct (truncate_text _ 85); simpl; [|done].
    by intros [-> ?]%add_row_ok.
  - destruct (_ !! 4%nat) as [a|].
    + destruct (truncate_text a 85); simpl; [|done].
      by intros [-> ?]%add_row_ok.
    + by intros [-> ?]%add_row_ok.
Qed.

Lemma add_rows_length movies rows :
  add_rows movies = Ok rows →
  length rows = length movies ∧ Forall (λ row, length row = 5%nat) rows.
Proof.
  revert rows. induction movies as [|movie movies IH]; intros rows; simpl.
  { intros [= <-]. by split. }
  destruct (render_row movie) as [row|] eqn:Hrow; simpl; [|done].
  destruct (add_rows movies) as [rows'|]; simpl; [|done].
  intros [= <-]. destruct (IH rows' eq_refl) as [Hl ?].
  split; [simpl; by rewrite Hl|]. constructor; [by eapply render_row_length|done].
Qed.

(** X15: [format_results] prints the "no results" message for the empty
    list whatever [max_rows] is; for a list that is not empty, all of whose
    elements render, and [max_rows ≥ 0] it prints a table of
    [min max_rows (len results)] rows of five cells each: with
    [max_rows = 0] a table without rows, not the message. *)
Theorem format_results_row_count results max_rows :
  0 ≤ max_rows → results ≠ [] → Forall renders results →
  format_results [] max_rows = Ok NoResultsFound ∧
  ∃ rows, format_results results max_rows = Ok (Table rows) ∧
          Z.of_nat (length rows) = Z.min max_rows (Z.of_nat (length results)) ∧
          Forall (λ row, length row = 5%nat) rows.
Proof.
  intros Hmax Hne Hall. split; [done|]. unfold format_results.
  destruct results as [|movie results]; [done|].
  assert (Forall renders (list_slice_to (movie :: results) max_rows)) as Hslice.
  { unfold list_slice_to. rewrite decide_True by done.
    apply Forall_take. done. }
  destruct (add_rows_renders _ Hslice) as [rows Hrows]. rewrite Hrows. simpl.
  exists rows. split; [done|].
  destruct (add_rows_length _ _ Hrows) as [-> ?]. split; [|done].
  unfold list_slice_to. rewrite decide_True by done. rewrite length_take.
  cbn [length]. lia.
Qed.

Lemma format_results_row_count_witness :
  ∃ rows, format_results [EDict ∅; EDict ∅] 0 = Ok (Table rows) ∧
          Z.of_nat (length rows) = Z.min 0 (Z.of_nat 2).
Proof.
  destruct (format_results_row_count [EDict ∅; EDict ∅] 0) as (_ & rows & ? & ? & _).
  - lia.
  - discriminate.
  - repeat constructor; eexists; by vm_compute.
  - by exists rows.
Defined.

(** X16: a dict row raises exactly when its [actors] value is an integer
    other than zero, and then a [TypeError]; otherwise it gives a row
    whose title, year and genre cells are the values of the dict, with the
    empty string for every key that is missing. *)
Theorem render_row_dict_cells d :
  let actors := dict_get d "actors" in
  (actors_ok actors →
   ∃ rating cell,
     render_row (EDict d) =
     Ok [dict_get d "title"; dict_get d "year"; PyStr rating;
         dict_get d "genre"; PyStr cell] ∧
     truncate_text actors 85 = Ok cell) ∧
  (¬ actors_ok actors → ∃ msg, render_row (EDict d) = Raise (TypeError msg)) ∧
  (∀ key, d !! key = None → dict_get d key = PyStr "").
Proof.
  intros actors. split_and!.
  - intros Hok. unfold render_row. fold actors.
    assert (∃ cell, truncate_text actors 85 = Ok cell) as [cell Hcell].
    { unfold truncate_text. destruct actors as [|z|s]; simpl in *.
      - by eexists.
      - subst z. by eexists.
      - destruct (negb _); [by eexists|]. case_decide; by eexists. }
    rewrite Hcell. simpl. by eexists _, cell.
  - intros Hbad. unfold render_row. fold actors.
    destruct actors as [|z|s]; simpl in Hbad; try done.
    unfold truncate_text. simpl. destruct (z =? 0) eqn:Hz; [lia|]. simpl.
    by eexists.
  - intros key Hkey. unfold dict_get. by rewrite Hkey.
Qed.

Lemma render_row_dict_cells_witness :
  ∃ rating cell,
    render_row (EDict {[ "title" := PyStr "Alien" ]}) =
    Ok [PyStr "Alien"; PyStr ""; PyStr rating; PyStr ""; PyStr cell] ∧
    truncate_text (PyStr "") 85 = Ok cell.
Proof.
  destruct (render_row_dict_cells {[ "title" := PyStr "Alien" ]}) as (Hok & _ & _).
  apply Hok. exact I.
Defined.

(** X17: a tuple row with fewer than five fields is refused with the
    table's [ValueError], whose message names the number of fields of the
    tuple and the five that are expected; a tuple row with five or more fields whose fifth
    field [truncate_text] accepts gives a row of five cells made from the
    first five fields only, the first, second and fourth unchanged. *)
Theorem render_row_tuple t :
  ((length t < 5)%nat →
   render_row (ETuple t) =
   Raise (ValueError ("Row has incorrect number of values, (actual) " +:+
                      pretty (length t) +:+ "!=5 (expected)"))) ∧
  ((5 ≤ length t)%nat →
   ∀ a cell, t !! 4%nat = Some a → truncate_text a 85 = Ok cell →
   ∃ row, render_row (ETuple t) = Ok row ∧ length row = 5%nat ∧
          row !! 0%nat = t !! 0%nat ∧ row !! 1%nat = t !! 1%nat ∧
          row !! 3%nat = t !! 3%nat ∧ row !! 4%nat = Some (PyStr cell) ∧
          ∀ extra, render_row (ETuple (take 5 t ++ extra)) = Ok row).
Proof.
  split.
  - intros Hlen. unfold render_row. rewrite take_ge by lia.
    assert (∀ row : list pyval, length row = length t →
              match row !! 4%nat with
              | Some a => actors ← truncate_text a 85;
                          add_row (<[4%nat := PyStr actors]> row)
              | None => add_row row
              end = Raise (ValueError ("Row has incorrect number of values, (actual) " +:+
                                       pretty (length t) +:+ "!=5 (expected)")))
      as Hrow.
    { intros row Hrow. rewrite lookup_ge_None_2 by lia.
      unfold add_row. rewrite decide_False by lia. by rewrite Hrow. }
    destruct (t !! 2%nat); apply Hrow; [by rewrite length_insert|done].
  - intros Hlen a cell Ha Hcell.
    assert (∀ t', take 5 t' = take 5 t →
              render_row (ETuple t') =
              Ok (<[4%nat := PyStr cell]>
                    (match take 5 t !! 2%nat with
                     | Some r => <[2%nat := PyStr (color_rating r)]> (take 5 t)
                     | None => take 5 t
                     end))) as Hgen.
    { intros t' Ht'. unfold render_row. rewrite Ht'.
      assert (take 5 t !! 4%nat = Some a) as H4 by (by rewrite lookup_take_lt by lia).
      destruct (take 5 t !! 2%nat) as [r|].
      - rewrite list_lookup_insert_ne by lia. rewrite H4, Hcell. simpl.
        unfold add_row. rewrite decide_True; [done|].
        rewrite !length_insert, length_take. lia.
      - rewrite H4, Hcell. simpl. unfold add_row. rewrite decide_True; [done|].
        rewrite !length_insert, length_take. lia. }
    eexists. split; [by apply Hgen|].
    assert (length (take 5 t) = 5%nat) as Hl5 by (rewrite length_take; lia).
    destruct (take 5 t !! 2%nat) as [r|] eqn:H2.
    + split_and!.
      * by rewrite !length_insert.
      * rewrite !list_lookup_insert_ne by lia. by rewrite lookup_take_lt by lia.
      * rewrite !list_lookup_insert_ne by lia. by rewrite lookup_take_lt by lia.
      * rewrite !list_lookup_insert_ne by lia. by rewrite lookup_take_lt by lia.
      * apply list_lookup_insert_eq. rewrite length_insert. lia.
      * intros extra. apply Hgen. rewrite take_app_le by lia.
        by rewrite take_take.
    + apply lookup_ge_None in H2. lia.
Qed.

Lemma render_row_tuple_witness :
  render_row (ETuple [PyStr "Alien"; PyInt 1979; PyStr "R"]) =
  Raise (ValueError "Row has incorrect number of values, (actual) 3!=5 (expected)").
Proof.
  destruct (render_row_tuple [PyStr "Alien"; PyInt 1979; PyStr "R"]) as [Hshort _].
  apply Hshort. simpl. lia.
Defined.

(** * Further properties of the application loop *)

Lemma keyword_iteration_paged E st keyword page s :
  1 ≤ page → (keyword_iteration E st keyword page).2 = Ok s →
  step_paged s ∧ genre_step_ok E s ∧ step_page s = page ∧
  step_statement s =
    SEARCH_BY_KEYWORD ("%" +:+ keyword +:+ "%") 10 ((page - 1) * 10).
Proof.
  intros Hpage. unfold keyword_iteration.
  destruct (search_by_keyword E st keyword 10 ((page - 1) * 10)) as [st1 res].
  destruct (format_results _ 10); [|done].
  destruct (log_writer.log_search E st1 _ _ _) as [st2 ok].
  intros [= <-]. by split_and!.
Qed.

Lemma genre_iteration_paged E st genre year_from year_to year_choice page s :
  genre ∈ name <$> categories (the_catalog E) → year_from ≤ year_to → 1 ≤ page →
  (year_choice = "1"%string → year_from = year_to) →
  (genre_iteration E st genre year_from year_to year_choice page).2 = Ok s →
  step_paged s ∧ genre_step_ok E s.
Proof.
  intros Hgenre Hyears Hpage Hchoice. unfold genre_iteration.
  destruct (search_by_genre_and_year E st genre year_from year_to 10
              ((page - 1) * 10)) as [st1 res].
  destruct (format_results _ 10); [|done].
  match goal with
  | |- context [log_writer.log_search E st1 ?ty ?ps ?n] =>
    pose proof (log_search_appends E st1 ty ps n) as [_ Hev];
    destruct (log_writer.log_search E st1 ty ps n) as [st2 ok]
  end.
  intros [= <-]. split; [by split|].
  intros g yf yt limit offset [= <- <- <- <- <-]. split_and!; [done..|].
  intros d Hd. cbn [step_event] in Hd. apply Hev in Hd as (Hty & Hps & _).
  rewrite Hps. split_and!; [done|apply lookup_insert_eq|done|].
  rewrite lookup_insert_ne by done. rewrite lookup_singleton_eq.
  case_decide; [left|right]; [split; [done|by apply Hchoice]|done].
Qed.

Lemma in_range_true lo hi y :
  in_range lo hi y = Ok true → ∃ l h, lo = PyInt l ∧ hi = PyInt h ∧ l ≤ y ≤ h.
Proof.
  unfold in_range. destruct lo as [|l|]; try done.
  destruct (l <=? y) eqn:Hl; [|done]. destruct hi as [|h|]; try done.
  intros [= Hh]. exists l, h. split_and!; [done..|lia|lia].
Qed.

Lemma paginate_loop_inv E a (r : state * outcome search_step) next :
  loop_inv E a → mode_ok E next →
  (∀ s, r.2 = Ok s → step_paged s ∧ genre_step_ok E s) →
  loop_inv E (paginate a r next).
Proof.
  intros (_ & Hp & Hg) Hnext Hr. unfold loop_inv, paginate.
  destruct r as [st1 [s|e]]; simpl in *; [|done].
  destruct (Hr s eq_refl). split_and!; [done|..]; apply Forall_app_2; by try constructor.
Qed.

Lemma step_loop_inv E a line : loop_inv E a → loop_inv E (step E a line).
Proof.
  intros Ha. pose proof Ha as (Hm & Hp & Hg).
  assert (∀ st m, mode_ok E m → loop_inv E (set_mode a st m)) as Hset
    by (by intros st m ?).
  unfold step. destruct (app_mode a) eqn:Hmode; simpl in Hm.
  - repeat case_decide; try done; try by apply Hset.
    + pose proof (get_all_genres_answered E (app_state a)) as Hgs.
      destruct (get_all_genres E (app_state a)) as [st1 [genres|e]];
        [|by apply Hset].
      destruct (get_year_range E st1) as [st2 [[lo hi]|e]]; apply Hset; [|done].
      simpl in *. injection Hgs as ->. intros g Hin.
      apply list_elem_of_fmap in Hin as (g' & [= ->] & Hin).
      destruct (mysql_status E (mysql_connects (app_state a)));
        try by apply elem_of_nil in Hin.
      unfold all_genre_names in Hin. by rewrite merge_sort_Permutation in Hin.
    + by destruct (log_stats.get_popular_queries E (app_state a) 5).
    + by destruct (log_stats.get_recent_queries E (app_state a) 5).
  - apply paginate_loop_inv; [done|done|]. intros s Hs.
    by apply keyword_iteration_paged in Hs as (? & ? & _).
  - case_decide; [by apply Hset|].
    apply paginate_loop_inv; [done|by apply navigate_page|]. intros s Hs.
    apply keyword_iteration_paged in Hs as (? & ? & _); [done|by apply navigate_page].
  - case_decide; apply Hset; [by apply Hm|done].
  - repeat case_decide; by apply Hset.
  - destruct (py_int line) as [year|]; [|done].
    destruct (in_range _ _ year) as [[]|] eqn:Hr; [|done|by apply Hset].
    apply paginate_loop_inv; [done|by simpl|]. intros s Hs.
    by apply genre_iteration_paged in Hs.
  - destruct (py_int line) as [year|]; [|done]. by apply Hset.
  - destruct (py_int line) as [year_to|]; [|by apply Hset].
    destruct (in_range _ _ year_from) as [[]|]; try by apply Hset.
    destruct (in_range _ _ year_to) as [[]|]; try by apply Hset.
    case_decide; [by apply Hset|].
    apply paginate_loop_inv; [done|simpl; split_and!; [done|lia|done|done]|].
    intros s Hs. apply genre_iteration_paged in Hs; [done|done|lia|done|done].
  - destruct Hm as (? & ? & ? & ?). case_decide; [by apply Hset|].
    apply paginate_loop_inv; [done|simpl; split_and!; try done; by apply navigate_page|].
    intros s Hs. apply genre_iteration_paged in Hs; try done. by apply navigate_page.
  - done.
  - done.
Qed.

Lemma main_loop_inv E st inputs : loop_inv E (main E st inputs).
Proof.
  unfold main.
  assert (loop_inv E (App st Menu [] [])) as Hinit by (by split_and!).
  revert Hinit. generalize (App st Menu [] []).
  induction inputs as [|line inputs IH]; intros a Ha; [done|].
  simpl. by apply IH, step_loop_inv.
Qed.

(** X18: whatever is typed, every search the loop issues, by keyword or by
    genre and year, asks for ten records from offset [(page - 1) * 10] for
    a page number that is at least one: going back from the first page
    stays on it, and no search ever carries a negative offset. *)
Theorem main_offsets E st inputs :
  Forall (λ s, step_paged s ∧
               ∃ offset, statement_window (step_statement s) = Some (10, offset) ∧
                         0 ≤ offset)
         (app_steps (main E st inputs)).
Proof.
  destruct (main_loop_inv E st inputs) as (_ & Hp & _).
  eapply Forall_impl; [exact Hp|]. intros s [Hpage Hw]. split; [done|].
  eexists. split; [exact Hw|lia].
Qed.

(** X19: whatever is typed, every genre and year search the loop issues is
    for a genre that is the name of a row of [category] and for a year
    range with [year_from ≤ year_to]; the event logged for it has type
    ["genre_year"], stores the genre and no keyword, and stores as
    [year_range] either the single year (then both bounds are that year) or
    the text ["year_from-year_to"]. *)
Theorem main_genre_searches E st inputs :
  Forall (genre_step_ok E) (app_steps (main E st inputs)).
Proof. by destruct (main_loop_inv E st inputs) as (_ & _ & ?). Qed.

(** A session with a genre and year search over a single year. *)
Example main_genre_searches_sample :
  (λ s, (step_statement s, params <$> step_event s)) <$>
    app_steps (main (serving sample_catalog) initial_state
                    ["2"; " Crime "; "1"; "2006"; "2"]%string) =
  [(SEARCH_BY_GENRE_AND_YEAR "Crime" 2006 2006 10 0,
    Some {[ "genre" := PyStr "Crime"; "year_range" := PyStr "2006" ]});
   (SEARCH_BY_GENRE_AND_YEAR "Crime" 2006 2006 10 10,
    Some {[ "genre" := PyStr "Crime"; "year_range" := PyStr "2006" ]})].
Proof. by vm_compute. Qed.

Lemma get_all_genres_connects E st :
  mysql_connects (get_all_genres E st).1 = S (mysql_connects st).
Proof.
  unfold get_all_genres.
  pose proof (execute_query_connects E st GET_ALL_GENRES true) as H.
  by destruct (execute_query E st GET_ALL_GENRES true).
Qed.

(** X20: on a catalog without films the genre and year search cannot be
    used: the server answering, [get_year_range] hands [(None, None)] to
    the loop, and once the user has chosen a genre of the catalog and typed
    a year that [int] accepts, the comparison of the year with [None]
    raises a [TypeError] that nothing catches, with either way of giving
    the years. *)
Theorem main_crashes_without_films E st genre line_genre line_year year :
  films (the_catalog E) = [] →
  mysql_status E (mysql_connects st) = Reachable →
  mysql_status E (S (mysql_connects st)) = Reachable →
  genre ∈ name <$> categories (the_catalog E) →
  strip line_genre = genre → py_int line_year = Ok year →
  (∃ msg, app_mode (main E st ["2"; line_genre; "1"; line_year]%string) =
          Crashed (TypeError msg)) ∧
  (∃ msg, app_mode (main E st ["2"; line_genre; "2"; line_year; line_year]%string) =
          Crashed (TypeError msg)).
Proof.
  intros Hfilms Hs0 Hs1 Hgenre Hstrip Hyear.
  assert (∃ st2,
            step E (App st Menu [] []) "2" =
            App st2 (AskGenre (PyStr <$> all_genre_names (the_catalog E))
                              PyNone PyNone) [] []) as [st2 Hstep1].
  { unfold step. cbn [app_mode app_state]. rewrite decide_False by done.
    rewrite decide_True by done.
    pose proof (get_all_genres_answered E st) as Hg.
    pose proof (get_all_genres_connects E st) as Hc.
    destruct (get_all_genres E st) as [st1 genres]. simpl in Hg, Hc.
    rewrite Hs0 in Hg. subst genres.
    pose proof (get_year_range_no_films E st1) as Hy.
    rewrite Hc in Hy. specialize (Hy Hs1 Hfilms).
    destruct (get_year_range E st1) as [st2 range]. simpl in Hy. subst range.
    by exists st2. }
  assert (step E (App st2 (AskGenre (PyStr <$> all_genre_names (the_catalog E))
                                    PyNone PyNone) [] []) line_genre =
          App st2 (AskYearChoice genre PyNone PyNone) [] []) as Hstep2.
  { unfold step. cbn [app_mode app_state]. rewrite Hstrip.
    rewrite decide_True; [done|].
    apply list_elem_of_fmap. exists genre. split; [done|].
    unfold all_genre_names. by rewrite merge_sort_Permutation. }
  unfold main. cbn [foldl]. rewrite Hstep1, Hstep2. split.
  - unfold step at 2. cbn [app_mode app_state].
    change (strip "1") with "1"%string. rewrite decide_True by done.
    unfold step, set_mode. cbn [app_mode app_state]. rewrite Hyear. simpl.
    by eexists.
  - unfold step at 3. cbn [app_mode app_state].
    change (strip "2") with "2"%string. rewrite decide_False by done.
    rewrite decide_True by done.
    unfold step at 2, set_mode. cbn [app_mode app_state]. rewrite Hyear.
    unfold step. cbn [app_mode app_state]. rewrite Hyear. simpl.
    by eexists.
Qed.

Lemma main_crashes_without_films_witness :
  ∃ msg, app_mode (main (serving filmless_catalog) initial_state
                        ["2"; "Horror"; "1"; "2000"]%string) =
         Crashed (TypeError msg).
Proof.
  destruct (main_crashes_without_films (serving filmless_catalog) initial_state
              "Horror" "Horror" "2000" 2000) as [Hcrash _].
  - reflexivity.
  - reflexivity.
  - reflexivity.
  - by left.
  - by vm_compute.
  - by vm_compute.
  - exact Hcrash.
Defined.

(** X21: at the navigation prompt of the keyword search every line other
    than ["3"] makes the loop search and call [log_search] once more, for
    the page the line leads to; a line that is neither ["1"] nor ["2"],
    and ["1"] on the first page, lead to the page already shown, which is
    searched and logged again. *)
Theorem keyword_navigation_repeats E a keyword page line :
  app_mode a = KeywordNav keyword page → line ≠ "3"%string →
  ∃ s, app_steps (step E a line) = app_steps a ++ [s] ∧
       app_mode (step E a line) = KeywordNav keyword (navigate line page) ∧
       step_statement s =
         SEARCH_BY_KEYWORD ("%" +:+ keyword +:+ "%") 10 ((navigate line page - 1) * 10) ∧
       (line ≠ "2"%string → line ≠ "1"%string ∨ page ≤ 1 →
        navigate line page = page).
Proof.
  intros Hmode Hline. unfold step. rewrite Hmode. rewrite decide_False by done.
  destruct (keyword_iteration_logs E (app_state a) keyword (navigate line page))
    as [s Hs].
  exists s. unfold paginate. rewrite Hs. cbn [app_steps app_mode].
  split_and!; [done|done| |].
  - clear Hmode. unfold keyword_iteration in Hs.
    destruct (search_by_keyword E (app_state a) keyword 10 _) as [st1 res].
    destruct (format_results _ 10); [|done].
    destruct (log_writer.log_search E st1 _ _ _) as [st2 ok].
    by injection Hs as <-.
  - intros H2 [H1|H1]; unfold navigate; repeat case_decide;
      congruence || lia.
Qed.

Lemma keyword_navigation_repeats_witness :
  ∃ s, app_steps (step (serving sample_catalog)
                       (main (serving sample_catalog) initial_state ["1"; "e"]%string)
                       "x") =
       app_steps (main (serving sample_catalog) initial_state ["1"; "e"]%string) ++ [s] ∧
       step_statement s = SEARCH_BY_KEYWORD "%e%" 10 0.
Proof.
  destruct (keyword_navigation_repeats (serving sample_catalog)
              (main (serving sample_catalog) initial_state ["1"; "e"]%string)
              "e" 1 "x") as (s & Hsteps & _ & Hq & _).
  - reflexivity.
  - discriminate.
  - exists s. split; [exact Hsteps|exact Hq].
Defined.

(** * The query text of the statistics tables *)

Lemma append_part_key (ps : pydict) key parts :
  key ∈ ["keyword"; "genre"; "year_range"]%string →
  append_part (popular_query {| _id := params_key ps; count := 0 |}) key parts =
  append_part ps key parts.
Proof.
  intros Hkey. unfold append_part, popular_query, params_key. simpl.
  assert (({[ "keyword" := default PyNone (ps !! "keyword");
              "genre" := default PyNone (ps !! "genre");
              "year_range" := default PyNone (ps !! "year_range") ]} : pydict) !! key
          = Some (default PyNone (ps !! key))) as ->.
  { rewrite !elem_of_cons, elem_of_nil in Hkey.
    destruct Hkey as [->|[->|[->|[]]]].
    - apply lookup_insert_eq.
    - rewrite lookup_insert_ne by done. apply lookup_insert_eq.
    - rewrite !lookup_insert_ne by done. apply lookup_singleton_eq. }
  by destruct (ps !! key) as [v|].
Qed.

Lemma append_part_nonempty (d : pydict) key parts :
  parts ≠ [] → append_part d key parts ≠ [].
Proof.
  intros Hne. unfold append_part. destruct (d !! key) as [v|]; [|done].
  destruct (truthy v); [|done]. by destruct parts.
Qed.

(** X22: the two statistics tables show a query the same way: the text
    [format_dict] gives for the parameters of an event is the text it gives
    for the group the event is counted in, and does not depend on
    [str(dict)], provided one of keyword, genre and year_range has a true
    value; so two events with the same three fields read the same, whatever
    else their parameters hold (such as the page). *)
Theorem format_dict_same_in_both_tables dict_str dict_str' (ps : pydict) count :
  names_query ps →
  recent_cell dict_str {| timestamp := 0; search_type := ""; params := ps;
                          results_count := 0 |} =
  popular_cell dict_str' {| _id := params_key ps; count := count |} ∧
  ∀ ps', params_key ps' = params_key ps →
         format_dict dict_str ps' = format_dict dict_str ps.
Proof.
  intros (key & Hkey & Ht)%Exists_exists.
  destruct (ps !! key) as [v|] eqn:Hv; [simpl in Ht|done].
  set (parts := append_part ps "year_range"
                  (append_part ps "genre" (append_part ps "keyword" []))).
  assert (parts ≠ []) as Hne.
  { subst parts. rewrite !elem_of_cons, elem_of_nil in Hkey.
    destruct Hkey as [->|[->|[->|[]]]].
    - do 2 apply append_part_nonempty. unfold append_part. by rewrite Hv, Ht.
    - apply append_part_nonempty. unfold append_part at 1. rewrite Hv, Ht.
      by destruct (append_part ps "keyword" []).
    - unfold append_part at 1. rewrite Hv, Ht.
      by destruct (append_part ps "genre" _). }
  assert (∀ ds ps0, params_key ps0 = params_key ps →
            format_dict ds ps0 = join_with ", " parts) as Hfmt.
  { intros ds ps0 Hsame. unfold format_dict.
    assert (∀ k ps1, k ∈ ["keyword"; "genre"; "year_range"]%string →
              append_part ps0 k ps1 = append_part ps k ps1) as Hpart.
    { intros k ps1 Hk. rewrite <- (append_part_key ps0 k ps1 Hk).
      rewrite <- (append_part_key ps k ps1 Hk). by rewrite Hsame. }
    rewrite !Hpart by (rewrite !elem_of_cons; tauto).
    fold parts. by destruct parts. }
  split.
  - unfold recent_cell, popular_cell. cbn [params]. rewrite (Hfmt dict_str ps eq_refl).
    unfold format_dict.
    rewrite !(append_part_key ps) by (rewrite !elem_of_cons; tauto).
    fold parts. by destruct parts.
  - intros ps' Hsame. by rewrite (Hfmt _ ps' Hsame), (Hfmt _ ps eq_refl).
Qed.

Lemma format_dict_same_in_both_tables_witness :
  format_dict (λ _, "{...}"%string)
              {[ "keyword" := PyStr "ince"; "page" := PyInt 3 ]} =
  format_dict (λ _, "{...}"%string)
              {[ "keyword" := PyStr "ince"; "page" := PyInt 2 ]}.
Proof.
  apply (format_dict_same_in_both_tables (λ _, "{...}"%string) (λ _, "{...}"%string)
           {[ "keyword" := PyStr "ince"; "page" := PyInt 2 ]} 0).
  - by apply Exists_cons_hd.
  - reflexivity.
Defined.

(** * Wildcards in the keyword *)

Lemma like_any s : like ["%"%char] s = true.
Proof. apply like_percent. exists s, []. by rewrite app_nil_r. Qed.

Lemma keyword_matches_ext rank cat p1 p2 :
  (∀ t, sql_like t p1 = sql_like t p2) →
  keyword_matches rank cat p1 = keyword_matches rank cat p2.
Proof.
  intros Hext. unfold keyword_matches. do 3 f_equal.
  apply list_filter_iff. intros r. by rewrite Hext.
Qed.

(** X23: the keyword is handed to [LIKE] as it is typed, so its wildcards
    work: every title matches the keyword [%], a title matches the keyword
    [_] exactly when it is not empty, and a search for [%] returns what a
    search with the empty keyword returns, in every state. *)
Theorem wildcard_keywords E st L O :
  (∀ t, sql_like t ("%" +:+ "%" +:+ "%") = true) ∧
  (∀ t, sql_like t ("%" +:+ "_" +:+ "%") = true ↔ t ≠ ""%string) ∧
  search_by_keyword E st "%" L O = search_by_keyword E st "" L O.
Proof.
  assert (∀ t, sql_like t "%%%" = true) as Hall.
  { intros t. unfold sql_like. change (list_ascii_of_string "%%%")
      with ["%"%char; "%"%char; "%"%char].
    apply like_percent. exists [], (list_ascii_of_string t). split; [done|].
    apply like_percent. exists [], (list_ascii_of_string t). split; [done|].
    apply like_any. }
  assert (∀ t, sql_like t "%%" = true) as Hempty.
  { intros t. unfold sql_like. change (list_ascii_of_string "%%")
      with ["%"%char; "%"%char].
    apply like_percent. exists [], (list_ascii_of_string t). split; [done|].
    apply like_any. }
  split_and!.
  - exact Hall.
  - intros t. unfold sql_like. change (list_ascii_of_string ("%" +:+ "_" +:+ "%"))
      with ["%"%char; "_"%char; "%"%char]. rewrite like_percent. split.
    + intros (pre & rest & Ht & Hlike) ->. simpl in Ht.
      symmetry in Ht. apply app_eq_nil in Ht as [_ ->]. done.
    + intros Hne. destruct t as [|c t]; [done|].
      exists [], (c :: list_ascii_of_string t). split; [done|].
      change (like ["_"%char; "%"%char] (c :: list_ascii_of_string t))
        with (like ["%"%char] (list_ascii_of_string t)). apply like_any.
  - unfold search_by_keyword, execute_query.
    destruct (get_db_connection E st) as [st1 [c|]]; [|done].
    assert (cursor_execute (row_rank E c) (the_catalog E)
              (SEARCH_BY_KEYWORD ("%" +:+ "%" +:+ "%") L O) =
            cursor_execute (row_rank E c) (the_catalog E)
              (SEARCH_BY_KEYWORD ("%" +:+ "" +:+ "%") L O))
      as ->; [|done].
    unfold cursor_execute, search_rows.
    rewrite (keyword_matches_ext _ _ ("%" +:+ "%" +:+ "%") ("%" +:+ "" +:+ "%")); [done|].
    intros t. by rewrite Hall, Hempty.
Qed.
